(** * nfd2nfc: the test-data generator [tools/generate_test_data.py]

    A shallow embedding of the script and the proofs of its specification.

    The script is a straight-line program over three pieces of state: the
    process-wide random generator, the filesystem and the in-memory folder
    registry [folder_list].  Each of them is threaded explicitly through the
    definitions below; the two [while] loops take a bound on the number of
    iterations, because the source loops are unbounded. *)

From Stdlib Require Import ZArith SpecFloat.
From stdpp Require Import base option list strings pretty gmap.

Local Open Scope Z_scope.

(** ** Python exceptions

    Only the classes the script can meet.  [OSError] stands for the whole
    family raised by the filesystem ([PermissionError], [FileExistsError],
    [NotADirectoryError], ...); all of them, and the three others, derive from
    [Exception], which is what the [except Exception] clauses catch. *)

Inductive exn : Type :=
  | IndexError (msg : string)
  | OSError (msg : string)
  | OverflowError (msg : string)
  | ValueError (msg : string).

(** [str(e)], as interpolated by the f-strings of the handlers. *)
Definition str_exn (e : exn) : string :=
  match e with
  | IndexError m | OSError m | OverflowError m | ValueError m => m
  end.


(** A computation that returns or raises. *)
Definition result (A : Type) : Type := exn + A.

Definition ret {A} (a : A) : result A := inr a.
Definition raise {A} (e : exn) : result A := inl e.
Definition bind {A B} (c : result A) (k : A → result B) : result B :=
  match c with
  | inl e => inl e
  | inr a => k a
  end.

Notation "'let*' x ':=' c 'in' k" := (bind c (λ x, k))
  (at level 10, x name, c at level 100, k at level 200, only parsing).
Notation "'let*' ' p ':=' c 'in' k" := (bind c (λ x, let 'p := x in k))
  (at level 10, p pattern, c at level 100, k at level 200, only parsing).

(** ** Python numbers: [int(TOTAL_ITEMS * FOLDER_RATIO)]

    [TOTAL_ITEMS] is an [int] and [FOLDER_RATIO] a [float], so the product is
    an IEEE 754 binary64 product: the integer is converted to the nearest
    double (ties to even), the two doubles are multiplied with one rounding,
    and [int()] truncates the result toward zero. *)

Module PyFloat.

Definition prec : Z := 53.
Definition emax : Z := 1024.

Abbreviation float := spec_float.

(** [float(n)] for an [int] [n]: correctly rounded, [OverflowError] past the
    largest double. *)
Definition of_int (n : Z) : result float :=
  match binary_normalize prec emax n 0 false with
  | S754_infinity _ => raise (OverflowError "int too large to convert to float")
  | x => ret x
  end.

Definition mul (x y : float) : float := SFmul prec emax x y.

(** A decimal literal [n/d] such as [0.4]: the double nearest to the
    quotient. *)
Definition literal (n d : Z) : float :=
  SFdiv prec emax (binary_normalize prec emax n 0 false)
                  (binary_normalize prec emax d 0 false).

(** [int(x)]: truncation toward zero. *)
Definition to_int (x : float) : result Z :=
  match x with
  | S754_zero _ => ret 0
  | S754_finite s m e =>
      let a := match e with
               | Z0 => Zpos m
               | Zpos k => Z.shiftl (Zpos m) (Zpos k)
               | Zneg k => Z.shiftr (Zpos m) (Zpos k)
               end in
      ret (if s then - a else a)
  | S754_infinity _ => raise (OverflowError "cannot convert float infinity to integer")
  | S754_nan => raise (ValueError "cannot convert float NaN to integer")
  end.

(** [int(n * x)] with [n] an [int] and [x] a [float]. *)
Definition int_mul_float (n : Z) (x : float) : result Z :=
  let* fn := of_int n in to_int (mul fn x).

End PyFloat.

(** ** Paths and the filesystem

    A path is the list of its components below the filesystem root, so
    [os.path.join(directory, name)] appends one component.  This is what
    [os.path.join] does for a [name] that is a single component (not empty,
    no separator), which is the case of every entry of the name pool and of
    every ["base (k)"] derived from one. *)

Abbreviation path := (list string).

Definition join (directory : path) (name : string) : path := directory ++ [name].

(** [os.path.dirname]. *)
Definition dirname (p : path) : path := removelast p.

Inductive node : Type :=
  | Dir
  | File (data : string).

Global Instance node_eq_dec : EqDecision node.
Proof. solve_decision. Defined.

(** The filesystem maps the paths that exist to what is there.  The empty
    path, the filesystem root, always exists and is a directory. *)
Abbreviation fs := (gmap path node).

Definition node_at (m : fs) (p : path) : option node :=
  match p with
  | [] => Some Dir
  | _ => m !! p
  end.

(** [os.path.exists] and [os.path.isdir]. *)
Definition path_exists (m : fs) (p : path) : bool :=
  match node_at m p with Some _ => true | None => false end.

Definition isdir (m : fs) (p : path) : bool :=
  match node_at m p with Some Dir => true | _ => false end.

(** The text of a path in a message: each component after a separator.  The
    message of an [OSError] that carries a file name is
    ["[Errno n] strerror: 'name'"]; the name is shown by [repr], which
    adds the quotes and nothing else when the name has no quote, no backslash
    and no unprintable character. *)
Definition show_path (p : path) : string :=
  match p with
  | [] => "/"
  | _ => foldr (λ name rest, "/" +:+ name +:+ rest) "" p
  end.

Definition os_error (strerror : string) (p : path) : exn :=
  OSError (strerror +:+ ": '" +:+ show_path p +:+ "'").

(** [os.mkdir]. *)
Definition mkdir (m : fs) (p : path) : result fs :=
  match node_at m p with
  | Some _ => raise (os_error "[Errno 17] File exists" p)
  | None =>
      match node_at m (dirname p) with
      | Some Dir => ret (<[p := Dir]> m)
      | Some (File _) => raise (os_error "[Errno 20] Not a directory" p)
      | None => raise (os_error "[Errno 2] No such file or directory" p)
      end
  end.

(** [os.makedirs(name, exist_ok=True)]: missing ancestors are created first,
    then the leaf; an error of the leaf's [mkdir] is swallowed when the leaf
    is already a directory.  The recursion of the library is on the head of
    the path, here on the reversed list of components.  (The library also
    swallows a [FileExistsError] of the recursive call, which only a
    concurrent writer can provoke.) *)
Fixpoint makedirs_rev (rname : list string) (m : fs) : result fs :=
  match rname with
  | [] => ret m
  | tail :: rhead =>
      let head := rev rhead in
      let name := join head tail in
      let* m1 := (if path_exists m head then ret m else makedirs_rev rhead m) in
      match mkdir m1 name with
      | inr m2 => ret m2
      | inl e => if isdir m1 name then ret m1 else raise e
      end
  end.

Definition makedirs (m : fs) (name : path) : result fs := makedirs_rev (rev name) m.

(** [shutil.rmtree]: everything at or below [p] goes. *)
Definition below (p q : path) : Prop := p `prefix_of` q.

Definition rmtree (m : fs) (p : path) : result fs :=
  match node_at m p with
  | Some Dir => ret (filter (λ e, ¬ below p e.1) m)
  | Some (File _) => raise (os_error "[Errno 20] Not a directory" p)
  | None => raise (os_error "[Errno 2] No such file or directory" p)
  end.

(** [with open(p, 'w') as f: f.write(data)]: creates the file, or truncates
    the one that is there. *)
Definition open_w_write (m : fs) (p : path) (data : string) : result fs :=
  match node_at m p with
  | Some Dir => raise (os_error "[Errno 21] Is a directory" p)
  | Some (File _) => ret (<[p := File data]> m)
  | None =>
      match node_at m (dirname p) with
      | Some Dir => ret (<[p := File data]> m)
      | Some (File _) => raise (os_error "[Errno 20] Not a directory" p)
      | None => raise (os_error "[Errno 2] No such file or directory" p)
      end
  end.

(** What the environment adds to these rules: a call may be refused for a
    reason the model does not track (permissions, quotas, name length, a
    read-only mount).  The refusals are an oracle: one for each of the two
    calls of the root reset, and one for every creation attempt of the loops,
    in the order of the attempts. *)
Record faults : Type := {
  rmtree_fault : option string;
  mkroot_fault : option string;
  item_fault : nat → option string
}.

Definition no_faults : faults :=
  {| rmtree_fault := None; mkroot_fault := None; item_fault := λ _, None |}.

Definition guarded {A} (refusal : option string) (call : result A) : result A :=
  match refusal with
  | Some msg => raise (OSError msg)
  | None => call
  end.

(** ** The random generator

    [random.seed], and [random.choice] through the one primitive it uses,
    [_randbelow(n)], which returns an index below [n]. *)
Class RandomSource (G : Type) : Type := {
  seed : Z → G;
  randbelow : G → nat → nat * G;
  randbelow_lt : ∀ g n, (0 < n)%nat → ((randbelow g n).1 < n)%nat
}.

Section Choice.
Context `{RandomSource G} {A : Type}.

(** [random.choice(seq)]. *)
Definition choice (g : G) (seq : list A) : result (A * G) :=
  match seq with
  | [] => raise (IndexError "Cannot choose from an empty sequence")
  | _ =>
      let '(i, g') := randbelow g (length seq) in
      match seq !! i with
      | Some x => ret (x, g')
      | None => raise (IndexError "list index out of range")
      end
  end.
End Choice.

(** ** The script *)

(** The module-level constants.  [ROOT_FOLDER] is computed from the working
    directory of the process. *)
Record config : Type := {
  TOTAL_ITEMS : Z;
  MAX_DEPTH : Z;
  FOLDER_RATIO : PyFloat.float;
  cwd : path;
  RANDOM_SEED : Z;
  NAMES_LIST : list string
}.

Definition ROOT_FOLDER (c : config) : path := join (cwd c) "test_data".

(** [int(TOTAL_ITEMS * FOLDER_RATIO)] *)
Definition num_folders (c : config) : result Z :=
  PyFloat.int_mul_float (TOTAL_ITEMS c) (FOLDER_RATIO c).

(** The constants as shipped (the name pool apart). *)
Definition shipped (wd : path) (names : list string) : config :=
  {| TOTAL_ITEMS := 10000;
     MAX_DEPTH := 4;
     FOLDER_RATIO := PyFloat.literal 4 10;
     cwd := wd;
     RANDOM_SEED := 42;
     NAMES_LIST := names |}.

(** *** [get_unique_name] *)

(** [f"{base_name} ({counter})"] *)
Definition numbered (base_name : string) (counter : nat) : string :=
  base_name +:+ " (" +:+ pretty counter +:+ ")".

(** The [while True] loop, for at most [fuel] probes. *)
Fixpoint get_unique_name_loop (fuel : nat) (m : fs) (directory : path)
    (base_name name : string) (counter : nat) : option string :=
  match fuel with
  | O => None
  | S fuel' =>
      let path := join directory name in
      if negb (path_exists m path) then Some name
      else get_unique_name_loop fuel' m directory base_name
             (numbered base_name counter) (S counter)
  end.

(** The loop probes pairwise distinct paths, so it ends within as many probes
    as the filesystem has entries, plus two ([get_unique_name_loop_total]). *)
Definition get_unique_name (m : fs) (directory : path) (base_name : string) : string :=
  default base_name
    (get_unique_name_loop (S (S (size m))) m directory base_name base_name 1).

(** The text of the last line of the script,
    [f"Successfully created {num_folders} folders and {num_files} files!"]:
    it shows the two numbers asked for, not the two counters. *)
Definition summary (nfolders nfiles : Z) : string :=
  "Successfully created " +:+ pretty nfolders +:+ " folders and "
    +:+ pretty nfiles +:+ " files!".

(** *** Program state *)

Section Script.
Context {G : Type} `{!RandomSource G}.

(** The variables of the script, with the filesystem and the standard
    output.  [attempts] counts the creation calls made by the loops, which
    is the position in the oracle; [journal] is a ghost record of the
    entries created, oldest first, that the script never reads. *)
Record state : Type := {
  generator : G;
  files : fs;
  stdout : list string;
  attempts : nat;
  folder_list : list (path * Z);
  created_folders : Z;
  created_files : Z;
  journal : list (path * node)
}.

(** How a bounded run ends: it ran to the end, an exception escaped, or the
    bound on the iterations of a loop was hit. *)
Inductive outcome : Type :=
  | Completed (st : state)
  | Aborted (e : exn) (st : state)
  | Unfinished (st : state).

Definition final (o : outcome) : state :=
  match o with Completed st | Aborted _ st | Unfinished st => st end.

Variable c : config.
Variable E : faults.

(** [valid_folders = [f for f in folder_list if f[1] < MAX_DEPTH - 1]] *)
Definition valid_folders (fl : list (path * Z)) : list (path * Z) :=
  filter (λ f, f.2 < MAX_DEPTH c - 1) fl.

(** The body of the folder loop in its two parts.  First the lines before
    the [try]: the two draws and the name resolution.  What they raise
    escapes the loop.  The values are those of [parent_folder], [depth] and
    [folder_name], with the generator after the draws. *)
Definition folder_draw (st : state) : result (path * Z * string * G) :=
  let* '((parent_folder, depth), g1) :=
    choice (generator st) (valid_folders (folder_list st)) in
  let* '(base_name, g2) := choice g1 (NAMES_LIST c) in
  let folder_name := get_unique_name (files st) parent_folder base_name in
  ret (parent_folder, depth, folder_name, g2).

(** The call inside the [try]: [os.makedirs(new_folder, exist_ok=True)]. *)
Definition try_makedirs (st : state) (new_folder : path) : result fs :=
  guarded (item_fault E (attempts st)) (makedirs (files st) new_folder).

(** The state after the [try] body ran to its end, where [m] is the
    filesystem as [makedirs] left it. *)
Definition folder_done (st : state) (g2 : G) (m : fs)
    (new_folder : path) (depth : Z) : state :=
  {| generator := g2;
     files := m;
     stdout := stdout st;
     attempts := S (attempts st);
     folder_list := folder_list st ++ [(new_folder, depth + 1)];
     created_folders := created_folders st + 1;
     created_files := created_files st;
     journal := journal st ++ [(new_folder, Dir)] |}.

(** The state after the [except] clause, where [e] is what [makedirs]
    raised. *)
Definition folder_failed (st : state) (g2 : G) (e : exn) : state :=
  {| generator := g2;
     files := files st;
     stdout := stdout st ++ ["Failed to create folder: " +:+ str_exn e];
     attempts := S (attempts st);
     folder_list := folder_list st;
     created_folders := created_folders st;
     created_files := created_files st;
     journal := journal st |}.

(** One pass through the body of the folder loop. *)
Definition folder_iteration (st : state) : result state :=
  let* '(parent_folder, depth, folder_name, g2) := folder_draw st in
  let new_folder := join parent_folder folder_name in
  match try_makedirs st new_folder with
  | inr m => ret (folder_done st g2 m new_folder depth)
  | inl e => ret (folder_failed st g2 e)
  end.

(** The same for the file loop: [target_folder] and [file_name], then the
    [with open(file_path, 'w') as f: f.write("")] of the [try]. *)
Definition file_draw (st : state) : result (path * string * G) :=
  let* '((target_folder, _), g1) := choice (generator st) (folder_list st) in
  let* '(base_name, g2) := choice g1 (NAMES_LIST c) in
  let file_name := get_unique_name (files st) target_folder base_name in
  ret (target_folder, file_name, g2).

Definition try_open (st : state) (file_path : path) : result fs :=
  guarded (item_fault E (attempts st)) (open_w_write (files st) file_path "").

Definition file_done (st : state) (g2 : G) (m : fs) (file_path : path) : state :=
  {| generator := g2;
     files := m;
     stdout := stdout st;
     attempts := S (attempts st);
     folder_list := folder_list st;
     created_folders := created_folders st;
     created_files := created_files st + 1;
     journal := journal st ++ [(file_path, File "")] |}.

Definition file_failed (st : state) (g2 : G) (e : exn) : state :=
  {| generator := g2;
     files := files st;
     stdout := stdout st ++ ["Failed to create file: " +:+ str_exn e];
     attempts := S (attempts st);
     folder_list := folder_list st;
     created_folders := created_folders st;
     created_files := created_files st;
     journal := journal st |}.

(** One pass through the body of the file loop. *)
Definition file_iteration (st : state) : result state :=
  let* '(target_folder, file_name, g2) := file_draw st in
  let file_path := join target_folder file_name in
  match try_open st file_path with
  | inr m => ret (file_done st g2 m file_path)
  | inl e => ret (file_failed st g2 e)
  end.

(** [while created_folders < num_folders: ...] *)
Fixpoint folder_loop (nfolders : Z) (fuel : nat) (st : state) : outcome :=
  if bool_decide (created_folders st < nfolders) then
    match fuel with
    | O => Unfinished st
    | S fuel' =>
        match folder_iteration st with
        | inl e => Aborted e st
        | inr st' => folder_loop nfolders fuel' st'
        end
    end
  else Completed st.

(** [while created_files < num_files: ...] *)
Fixpoint file_loop (nfiles : Z) (fuel : nat) (st : state) : outcome :=
  if bool_decide (created_files st < nfiles) then
    match fuel with
    | O => Unfinished st
    | S fuel' =>
        match file_iteration st with
        | inl e => Aborted e st
        | inr st' => file_loop nfiles fuel' st'
        end
    end
  else Completed st.

(** The root reset, in its two calls:
    [if os.path.exists(ROOT_FOLDER): shutil.rmtree(ROOT_FOLDER)] and
    [os.makedirs(ROOT_FOLDER, exist_ok=True)]. *)
Definition remove_root (m : fs) : result fs :=
  if path_exists m (ROOT_FOLDER c)
  then guarded (rmtree_fault E) (rmtree m (ROOT_FOLDER c))
  else ret m.

Definition make_root (m : fs) : result fs :=
  guarded (mkroot_fault E) (makedirs m (ROOT_FOLDER c)).

Definition reset_root (m : fs) : result fs :=
  let* m0 := remove_root m in make_root m0.

(** The state when the first loop is entered. *)
Definition initial (m : fs) : state :=
  {| generator := seed (RANDOM_SEED c);
     files := m;
     stdout := [];
     attempts := 0;
     folder_list := [(ROOT_FOLDER c, 0)];
     created_folders := 0;
     created_files := 0;
     journal := [] |}.

(** The state shown when an exception escapes before [folder_list] is
    bound. *)
Definition unbound (m : fs) : state :=
  {| generator := seed (RANDOM_SEED c);
     files := m;
     stdout := [];
     attempts := 0;
     folder_list := [];
     created_folders := 0;
     created_files := 0;
     journal := [] |}.

(** The state after the [print] that ends the script. *)
Definition print_summary (nfolders nfiles : Z) (st : state) : state :=
  {| generator := generator st;
     files := files st;
     stdout := stdout st ++ [summary nfolders nfiles];
     attempts := attempts st;
     folder_list := folder_list st;
     created_folders := created_folders st;
     created_files := created_files st;
     journal := journal st |}.

(** The whole script, started on the filesystem [m], each loop bounded by
    [fuel] iterations: the root reset, the two numbers, the folder loop, the
    file loop, and the summary line once both loops ran to their end. *)
Definition generate (m : fs) (fuel : nat) : outcome :=
  match remove_root m with
  | inl e => Aborted e (unbound m)
  | inr m0 =>
      match make_root m0 with
      | inl e => Aborted e (unbound m0)
      | inr m1 =>
          match num_folders c with
          | inl e => Aborted e (unbound m1)
          | inr nfolders =>
              let nfiles := TOTAL_ITEMS c - nfolders in
              match folder_loop nfolders fuel (initial m1) with
              | Completed st =>
                  match file_loop nfiles fuel st with
                  | Completed st' => Completed (print_summary nfolders nfiles st')
                  | o => o
                  end
              | o => o
              end
          end
      end
  end.

End Script.

(** * Vocabulary of the specification *)

Global Instance below_dec (p q : path) : Decision (below p q).
Proof. unfold below. apply _. Defined.

(** Strictly below [R]. *)
Definition inside (R p : path) : Prop := below R p ∧ p ≠ R.

Global Instance inside_dec (R p : path) : Decision (inside R p).
Proof. unfold inside. apply _. Defined.

(** The probe of [get_unique_name]: is there an entry called [name] in
    [directory]? *)
Definition taken (m : fs) (directory : path) (name : string) : bool :=
  path_exists m (join directory name).

(** What [get_unique_name] is to return: the base name when it is free, else
    the first free numbered name, counting from 1. *)
Definition resolves (m : fs) (directory : path) (base_name r : string) : Prop :=
  (taken m directory base_name = false ∧ r = base_name) ∨
  (taken m directory base_name = true ∧
   ∃ k, (1 ≤ k)%nat ∧ r = numbered base_name k ∧
     taken m directory r = false ∧
     ∀ j, (1 ≤ j < k)%nat → taken m directory (numbered base_name j) = true).

(** A filesystem is well formed when every entry sits in a directory. *)
Definition well_formed (m : fs) : Prop :=
  map_Forall (λ p _, node_at m (dirname p) = Some Dir) m.

Global Instance well_formed_dec (m : fs) : Decision (well_formed m).
Proof. unfold well_formed. apply _. Defined.

(** The numbers of folders and of files strictly below [R]. *)
Definition is_dir (n : node) : bool :=
  match n with Dir => true | File _ => false end.

Definition folders_under (R : path) (m : fs) : nat :=
  size (filter (λ e, inside R e.1 ∧ is_dir e.2 = true) m).

Definition files_under (R : path) (m : fs) : nat :=
  size (filter (λ e, inside R e.1 ∧ is_dir e.2 = false) m).

(** The number of folders as the specification words it: the floor of the
    product of [n] and the number that the double [x] stands for, the product
    taken exactly.  (The script rounds the product to a double first.) *)
Definition exact_floor (n : Z) (x : PyFloat.float) : option Z :=
  match x with
  | S754_zero _ => Some 0
  | S754_finite s mant e =>
      let v := n * (if s then Zneg mant else Zpos mant) in
      Some (if bool_decide (0 ≤ e) then v * 2 ^ e else v / 2 ^ (- e))
  | S754_infinity _ | S754_nan => None
  end.

(** What [random.choice] raises on an empty sequence. *)
Definition empty_sequence : exn := IndexError "Cannot choose from an empty sequence".

(** The registry invariant: the depth a record carries is the number of
    components of its path below the root, and every record but the root's
    was added under a parent that passed the filter of [valid_folders]. *)
Record depth_ok (c : config) (fl : list (path * Z)) : Prop := {
  depth_true : ∀ p dp, (p, dp) ∈ fl →
    ∃ k, p = ROOT_FOLDER c ++ k ∧ dp = Z.of_nat (length k);
  depth_parent : ∀ p dp, (p, dp) ∈ fl → p ≠ ROOT_FOLDER c →
    (dirname p, dp - 1) ∈ fl ∧ dp - 1 < MAX_DEPTH c - 1
}.

(** The tree invariant, over the filesystem [m], the registry [fl], the
    journal [j] and the two counters: the registry holds directories below
    the root; the journal lists, without repetition, exactly the entries
    strictly below the root, each created in a directory of the registry;
    the files are empty; the counters count what is there. *)
Record tree_ok (c : config) (m : fs) (fl : list (path * Z))
    (j : list (path * node)) (nfolders nfiles : Z) : Prop := {
  tree_registry : ∀ p dp, (p, dp) ∈ fl →
    node_at m p = Some Dir ∧ below (ROOT_FOLDER c) p;
  tree_root : (ROOT_FOLDER c, 0) ∈ fl;
  tree_journal_nodup : NoDup j.*1;
  tree_journal : ∀ p n, (p, n) ∈ j ↔ m !! p = Some n ∧ inside (ROOT_FOLDER c) p;
  tree_parent : ∀ p n, (p, n) ∈ j →
    p = join (dirname p) (List.last p "") ∧ ∃ dp, (dirname p, dp) ∈ fl;
  tree_dirs : ∀ p, (p, Dir) ∈ j → ∃ dp, (p, dp) ∈ fl;
  tree_files : ∀ p x, (p, File x) ∈ j → x = "";
  tree_folders_count : nfolders = Z.of_nat (folders_under (ROOT_FOLDER c) m);
  tree_files_count : nfiles = Z.of_nat (files_under (ROOT_FOLDER c) m)
}.

Definition tree_inv {G : Type} (c : config) (st : @state G) : Prop :=
  tree_ok c (files st) (folder_list st) (journal st)
          (created_folders st) (created_files st).

Definition depth_inv {G : Type} (c : config) (st : @state G) : Prop :=
  depth_ok c (folder_list st).

(** The tree of the scenario: 4 folders and 6 files under the root [R];
    every folder a child of the root, recorded at depth 1; every file empty,
    in the root or in one of these folders. *)
Definition scenario_tree {G : Type} (R : path) (st : @state G) : Prop :=
  folders_under R (files st) = 4%nat ∧
  files_under R (files st) = 6%nat ∧
  (∀ p, files st !! p = Some Dir → inside R p →
        dirname p = R ∧ (p, 1) ∈ folder_list st) ∧
  (∀ p x, files st !! p = Some (File x) → inside R p →
        x = "" ∧
        (dirname p = R ∨
         (dirname (dirname p) = R ∧ files st !! dirname p = Some Dir))).

(** The names of the entries that the journal [j] records in the directory
    [d], in the order of their creation. *)
Definition children (j : list (path * node)) (d : path) : list string :=
  (λ e, List.last e.1 "") <$> filter (λ e, dirname e.1 = d) j.

(** The two loops one after the other, and the summary line on what they
    give: [generate] is the second on the first ([generate_loops]). *)
Definition both_loops {G : Type} `{!RandomSource G} (c : config) (E : faults)
    (nfolders : Z) (fuel : nat) (st : @state G) : outcome :=
  match folder_loop c E nfolders fuel st with
  | Completed st1 => file_loop c E (TOTAL_ITEMS c - nfolders) fuel st1
  | o => o
  end.

Definition closing {G : Type} (nfolders nfiles : Z) (o : @outcome G) : outcome :=
  match o with
  | Completed st => Completed (print_summary nfolders nfiles st)
  | Aborted e st => Aborted e st
  | Unfinished st => Unfinished st
  end.

(** A run stalls when no bound on the iterations lets it end, one way or the
    other. *)
Definition stalls {G : Type} `{!RandomSource G}
    (c : config) (E : faults) (m : fs) : Prop :=
  ∀ fuel, ∃ st, generate c E m fuel = Unfinished st.

(** Two runs are compared up to the place of their roots: the same entries at
    the same relative paths, the same records in the same order. *)
Definition same_tree (R1 R2 : path) (m1 m2 : fs) : Prop :=
  ∀ q, m1 !! (R1 ++ q) = m2 !! (R2 ++ q).

Definition same_record (R1 R2 : path) (f1 f2 : path * Z) : Prop :=
  f1.2 = f2.2 ∧ ∃ q, f1.1 = R1 ++ q ∧ f2.1 = R2 ++ q.

Definition same_registry (R1 R2 : path) (fl1 fl2 : list (path * Z)) : Prop :=
  Forall2 (same_record R1 R2) fl1 fl2.

(** Two configurations that differ in the working directory at most. *)
Definition same_settings (c1 c2 : config) : Prop :=
  TOTAL_ITEMS c1 = TOTAL_ITEMS c2 ∧ MAX_DEPTH c1 = MAX_DEPTH c2 ∧
  FOLDER_RATIO c1 = FOLDER_RATIO c2 ∧ RANDOM_SEED c1 = RANDOM_SEED c2 ∧
  NAMES_LIST c1 = NAMES_LIST c2.

Record alike {G : Type} (R1 R2 : path) (s1 s2 : @state G) : Prop := {
  alike_generator : generator s1 = generator s2;
  alike_files : same_tree R1 R2 (files s1) (files s2);
  alike_stdout : stdout s1 = stdout s2;
  alike_attempts : attempts s1 = attempts s2;
  alike_registry : same_registry R1 R2 (folder_list s1) (folder_list s2);
  alike_folders : created_folders s1 = created_folders s2;
  alike_files_count : created_files s1 = created_files s2
}.

Definition same_ending {G : Type} (o1 o2 : @outcome G) : Prop :=
  match o1, o2 with
  | Completed _, Completed _ => True
  | Aborted e1 _, Aborted e2 _ => e1 = e2
  | Unfinished _, Unfinished _ => True
  | _, _ => False
  end.

(** What an iteration may do to the tree: nothing, or add one entry [n] at a
    path where nothing was, every other entry staying as it is. *)
Definition creates_afresh {G : Type} (st st' : @state G) (n : node) : Prop :=
  (journal st' = journal st ∧ files st' = files st) ∨
  ∃ p, journal st' = journal st ++ [(p, n)] ∧
       path_exists (files st) p = false ∧
       files st' !! p = Some n ∧
       files st ⊆ files st'.

(** A line that one of the two handlers prints. *)
Definition failure_line (line : string) : Prop :=
  ∃ e, line = "Failed to create folder: " +:+ str_exn e ∨
       line = "Failed to create file: " +:+ str_exn e.

(** A name that comes from the pool: a name of the pool, or one with a
    counter from 1 on. *)
Definition from_pool (pool : list string) (name : string) : Prop :=
  ∃ base, base ∈ pool ∧
    (name = base ∨ ∃ k, (1 ≤ k)%nat ∧ name = numbered base k).

(** [k] entries created one after the other in the directory [d], each under
    the name that [get_unique_name] gives for the same base name: the names,
    oldest first, and the filesystem in the end. *)
Fixpoint reserve (k : nat) (m : fs) (d : path) (base_name : string) (x : node)
    : list string * fs :=
  match k with
  | O => ([], m)
  | S k' =>
      let name := get_unique_name m d base_name in
      let '(names, m') := reserve k' (<[join d name := x]> m) d base_name x in
      (name :: names, m')
  end.
(** The doubles that are numbers: [int()] raises on the others. *)
Definition finite_float (x : PyFloat.float) : bool :=
  match x with
  | S754_zero _ | S754_finite _ _ _ => true
  | S754_infinity _ | S754_nan => false
  end.
(** Every attempt either counts or prints. *)
Definition accounted {G : Type} (st : @state G) : Prop :=
  Z.of_nat (attempts st)
    = created_folders st + created_files st + Z.of_nat (length (stdout st)) ∧
  0 ≤ created_folders st ∧ 0 ≤ created_files st ∧
  Forall failure_line (stdout st).

(** The folders that the journal records, oldest first. *)
Definition journal_dirs (j : list (path * node)) : list path :=
  (filter (λ e, is_dir e.2 = true) j).*1.

(** ** Inputs of the examples *)

(** A generator to run the script on: a linear congruential sequence, of
    which [_randbelow] takes the high bits. *)
Definition lcg_next (s : Z) : Z := (s * 1103515245 + 12345) mod 2147483648.

Definition lcg_below (g : Z) (n : nat) : nat * Z :=
  (Z.to_nat ((g / 65536) mod Z.of_nat n), lcg_next g).

Definition lcg : RandomSource Z :=
  {| seed := λ s, lcg_next (Z.abs s);
     randbelow := lcg_below;
     randbelow_lt := λ g n Hn,
       match Z.mod_pos_bound (g / 65536) (Z.of_nat n) ltac:(lia) with
       | conj _ Hlt => ltac:(simpl; lia)
       end |}.

(** The configuration of the scenario of the specification. *)
Definition scenario (wd : path) : config :=
  {| TOTAL_ITEMS := 10;
     MAX_DEPTH := 2;
     FOLDER_RATIO := PyFloat.literal 4 10;
     cwd := wd;
     RANDOM_SEED := 42;
     NAMES_LIST := ["a"; "b"] |}.

(** An environment that refuses every third creation call. *)
Definition flaky : faults :=
  {| rmtree_fault := None;
     mkroot_fault := None;
     item_fault := λ k, if (k mod 3 =? 0)%nat
                        then Some "[Errno 13] Permission denied" else None |}.

(** An environment that refuses the first three creation calls, and none
    after. *)
Definition slow_start : faults :=
  {| rmtree_fault := None;
     mkroot_fault := None;
     item_fault := λ k, if (k <? 3)%nat
                        then Some "[Errno 13] Permission denied" else None |}.

(** A filesystem where an earlier run left a root with something in it. *)
Definition used_disk : fs :=
  <[ ["home"; "u"; "test_data"; "old"; "b"] := File "data" ]>
  (<[ ["home"; "u"; "test_data"; "old"] := Dir ]>
  (<[ ["home"; "u"; "test_data"] := Dir ]>
  (<[ ["home"; "u"] := Dir ]>
  (<[ ["home"] := Dir ]> ∅)))).

(** The same disk after the root reset. *)
Definition fresh_disk : fs :=
  <[ ["home"; "u"; "test_data"] := Dir ]>
  (<[ ["home"; "u"] := Dir ]>
  (<[ ["home"] := Dir ]> ∅)).

(** The scenario with an empty name pool, and with a maximal depth of 1. *)
Definition no_names (wd : path) : config :=
  {| TOTAL_ITEMS := 10;
     MAX_DEPTH := 2;
     FOLDER_RATIO := PyFloat.literal 4 10;
     cwd := wd;
     RANDOM_SEED := 42;
     NAMES_LIST := [] |}.

Definition shallow (wd : path) : config :=
  {| TOTAL_ITEMS := 10;
     MAX_DEPTH := 1;
     FOLDER_RATIO := PyFloat.literal 4 10;
     cwd := wd;
     RANDOM_SEED := 42;
     NAMES_LIST := ["a"; "b"] |}.

(** A run small enough to be replayed step by step: three items. *)
Definition tiny (wd : path) : config :=
  {| TOTAL_ITEMS := 3;
     MAX_DEPTH := 2;
     FOLDER_RATIO := PyFloat.literal 4 10;
     cwd := wd;
     RANDOM_SEED := 42;
     NAMES_LIST := ["a"; "b"] |}.

(** Three items with [FOLDER_RATIO = 0.3333333333333333], the double nearest
    to a third. *)
Definition thirds (wd : path) : config :=
  {| TOTAL_ITEMS := 3;
     MAX_DEPTH := 2;
     FOLDER_RATIO := PyFloat.literal 3333333333333333 10000000000000000;
     cwd := wd;
     RANDOM_SEED := 42;
     NAMES_LIST := ["a"; "b"] |}.

(** A ratio above 1: three folders asked for, out of two items. *)
Definition greedy (wd : path) : config :=
  {| TOTAL_ITEMS := 2;
     MAX_DEPTH := 2;
     FOLDER_RATIO := PyFloat.literal 3 2;
     cwd := wd;
     RANDOM_SEED := 42;
     NAMES_LIST := ["a"; "b"] |}.

(** Nothing asked for, and nothing to choose from. *)
Definition idle (wd : path) : config :=
  {| TOTAL_ITEMS := 0;
     MAX_DEPTH := 0;
     FOLDER_RATIO := PyFloat.literal 4 10;
     cwd := wd;
     RANDOM_SEED := 42;
     NAMES_LIST := [] |}.

(** * Properties *)

(** ** The result monad *)

Lemma bind_inr {A B} (m : result A) (k : A → result B) b :
  bind m k = inr b → ∃ a, m = inr a ∧ k a = inr b.
Proof. destruct m as [e|a]; simpl; [discriminate | eauto]. Qed.

Lemma bind_inl {A B} (m : result A) (k : A → result B) e :
  bind m k = inl e → m = inl e ∨ ∃ a, m = inr a ∧ k a = inl e.
Proof. destruct m as [e'|a]; simpl; [intros [= ->]; by left | eauto]. Qed.

(** ** Paths *)

Lemma dirname_join (d : path) (n : string) : dirname (join d n) = d.
Proof. apply removelast_last. Qed.

Lemma join_inj (d1 : path) (n1 : string) (d2 : path) (n2 : string) : join d1 n1 = join d2 n2 → d1 = d2 ∧ n1 = n2.
Proof. intros Heq. by apply app_inj_tail in Heq. Qed.

Lemma join_not_nil (d : path) (n : string) : join d n ≠ [].
Proof. unfold join. by destruct d. Qed.

Lemma node_at_join (m : fs) (d : path) (n : string) : node_at m (join d n) = m !! join d n.
Proof. unfold node_at, join. by destruct d. Qed.

Lemma node_at_lookup (m : fs) (p : path) : p ≠ [] → node_at m p = m !! p.
Proof. by destruct p. Qed.

Lemma path_exists_true (m : fs) (p : path) : path_exists m p = true ↔ is_Some (node_at m p).
Proof.
  unfold path_exists. destruct (node_at m p); split; eauto; try done.
Qed.

Lemma path_exists_false (m : fs) (p : path) : path_exists m p = false ↔ node_at m p = None.
Proof. unfold path_exists. by destruct (node_at m p). Qed.

Lemma below_join (p d : path) (n : string) : below p d → below p (join d n).
Proof. intros Hb. by apply prefix_app_r. Qed.

Lemma below_refl (p : path) : below p p.
Proof. done. Qed.

Lemma below_antisym (p q : path) : below p q → below q p → p = q.
Proof.
  intros [k1 Hk1] [k2 Hk2]. rewrite Hk1 in Hk2.
  rewrite <- (app_nil_r p) in Hk2 at 1. rewrite <- app_assoc in Hk2.
  apply app_inv_head in Hk2. symmetry in Hk2.
  apply app_eq_nil in Hk2 as [-> _]. by rewrite app_nil_r in Hk1.
Qed.

Lemma join_not_below (d : path) (n : string) : ¬ below (join d n) d.
Proof.
  intros Hb. assert (join d n = d) as Heq.
  { apply below_antisym; [done | by apply below_join]. }
  apply (f_equal length) in Heq. unfold join in Heq.
  rewrite length_app in Heq. simpl in Heq. lia.
Qed.

(** ** [get_unique_name] *)

Lemma string_snoc_inj (s1 s2 : string) (a : Ascii.ascii) :
  s1 +:+ String a "" = s2 +:+ String a "" → s1 = s2.
Proof.
  revert s2. induction s1 as [|b1 s1 IH]; intros [|b2 s2] Heq; simpl in Heq.
  - done.
  - injection Heq as _ Heq. by destruct s2.
  - injection Heq as _ Heq. by destruct s1.
  - injection Heq as -> Heq. f_equal. by apply IH.
Qed.

Section UniqueName.
Variable m : fs.
Variable directory : path.
Variable base_name : string.

Lemma numbered_inj i j : numbered base_name i = numbered base_name j → i = j.
Proof.
  unfold numbered. intros Heq.
  apply (inj (String.app base_name)) in Heq.
  apply (inj (String.app " (")) in Heq.
  apply string_snoc_inj in Heq. by apply (inj pretty) in Heq.
Qed.

(** What the loop returns, when it returns: the name it was entered with if
    that one is free, else the first free numbered name from [counter]
    on. *)
Lemma get_unique_name_loop_sound fuel name counter r :
  get_unique_name_loop fuel m directory base_name name counter = Some r →
  (taken m directory name = false ∧ r = name) ∨
  (taken m directory name = true ∧ ∃ k, (counter ≤ k)%nat ∧ r = numbered base_name k ∧
     taken m directory r = false ∧
     ∀ j, (counter ≤ j < k)%nat → taken m directory (numbered base_name j) = true).
Proof.
  revert name counter. induction fuel as [|fuel IH]; intros name counter; [done|].
  simpl. fold (taken m directory name). destruct (taken m directory name) eqn:Hname; simpl.
  - intros Hrec. right. split; [done|].
    apply IH in Hrec as [[Hfree ->] | [Htaken (k & Hk & -> & Hfree & Hbelow)]].
    + exists counter. split_and!; [lia | done | done | intros j; lia].
    + exists k. split_and!; [lia | done | done |].
      intros j Hj. destruct (decide (j = counter)) as [-> | Hne]; [done|].
      apply Hbelow. lia.
  - intros [= <-]. by left.
Qed.

(** The loop returns as soon as its bound reaches past a free name. *)
Lemma get_unique_name_loop_complete fuel name counter :
  taken m directory name = false ∨
    (∃ k, (counter ≤ k)%nat ∧ (k + 1 < counter + S fuel)%nat ∧
          taken m directory (numbered base_name k) = false) →
  is_Some (get_unique_name_loop (S fuel) m directory base_name name counter).
Proof.
  revert name counter. induction fuel as [|fuel IH]; intros name counter Hfree;
    simpl; fold (taken m directory name); destruct (taken m directory name) eqn:Hname; simpl; eauto.
  - destruct Hfree as [? | (k & ? & ? & _)]; [congruence | lia].
  - apply IH. destruct Hfree as [? | (k & Hk1 & Hk2 & Hk)]; [congruence|].
    destruct (decide (k = counter)) as [-> | Hne]; [by left | right].
    exists k. split_and!; [lia | lia | done].
Qed.

(** Pigeonhole: the numbered names are pairwise distinct, so the first
    [size m + 1] of them cannot all be entries of [m]. *)
Lemma numbered_free_exists :
  ∃ k, (1 ≤ k ≤ S (size m))%nat ∧ taken m directory (numbered base_name k) = false.
Proof.
  set (cands := seq 1 (S (size m))).
  destruct (decide (Exists (λ k, taken m directory (numbered base_name k) = false) cands))
    as [Hex | Hall].
  - apply Exists_exists in Hex as (k & Hk & Hfree).
    apply elem_of_seq in Hk. exists k. split; [lia | done].
  - exfalso. apply not_Exists_Forall in Hall; [|intros k; apply _].
    set (probes := (λ k, join directory (numbered base_name k)) <$> cands).
    assert (NoDup probes) as Hnd.
    { apply NoDup_fmap_2_strong; [|apply NoDup_seq].
      intros i j _ _ Heq. apply join_inj in Heq as [_ Heq].
      by apply numbered_inj in Heq. }
    assert (list_to_set probes ⊆@{gset path} dom m) as Hsub.
    { intros p Hp. apply elem_of_list_to_set, list_elem_of_fmap in Hp
        as (k & -> & Hk).
      rewrite Forall_forall in Hall. specialize (Hall k Hk). simpl in Hall.
      apply not_false_is_true, path_exists_true in Hall.
      rewrite node_at_join in Hall. by apply elem_of_dom. }
    apply subseteq_size in Hsub.
    rewrite size_list_to_set, size_dom in Hsub by done.
    unfold probes, cands in Hsub. rewrite length_fmap, length_seq in Hsub. lia.
Qed.

(** The loop of [get_unique_name] ends: the bound the definition gives it is
    enough, and so is every larger one. *)
Lemma get_unique_name_loop_total fuel :
  (S (size m) ≤ fuel)%nat →
  is_Some (get_unique_name_loop (S fuel) m directory base_name base_name 1).
Proof.
  intros Hfuel. apply get_unique_name_loop_complete. right.
  destruct numbered_free_exists as (k & Hk & Hfree).
  exists k. split_and!; [lia | lia | done].
Qed.

Lemma resolves_functional r1 r2 : resolves m directory base_name r1 → resolves m directory base_name r2 → r1 = r2.
Proof.
  intros [[H1 ->] | [H1 (k1 & ? & -> & Hf1 & Hb1)]]
         [[H2 ->] | [H2 (k2 & ? & -> & Hf2 & Hb2)]]; try congruence.
  destruct (Nat.lt_trichotomy k1 k2) as [Hlt | [-> | Hgt]]; [|done|].
  - rewrite Hb2 in Hf1; [done | lia].
  - rewrite Hb1 in Hf2; [done | lia].
Qed.

Lemma get_unique_name_loop_resolves fuel r :
  get_unique_name_loop fuel m directory base_name base_name 1 = Some r →
  resolves m directory base_name r.
Proof. apply get_unique_name_loop_sound. Qed.

Lemma get_unique_name_resolves : resolves m directory base_name (get_unique_name m directory base_name).
Proof.
  unfold get_unique_name.
  destruct (get_unique_name_loop_total (S (size m))) as [r Hr]; [lia|].
  rewrite Hr. simpl. by eapply get_unique_name_loop_resolves.
Qed.

Lemma get_unique_name_fresh :
  node_at m (join directory (get_unique_name m directory base_name)) = None.
Proof.
  apply path_exists_false.
  destruct get_unique_name_resolves as [[Hfree ->] | [_ (k & _ & -> & Hfree & _)]];
    done.
Qed.

End UniqueName.

(** The result of [get_unique_name] depends on the filesystem only through
    the entries of the directory. *)
Lemma get_unique_name_ext (m1 m2 : fs) (d1 d2 : path) (base_name : string) :
  (∀ name, taken m1 d1 name = taken m2 d2 name) →
  get_unique_name m1 d1 base_name = get_unique_name m2 d2 base_name.
Proof.
  intros Hsame.
  apply (resolves_functional m2 d2 base_name); [|apply get_unique_name_resolves].
  destruct (get_unique_name_resolves m1 d1 base_name)
    as [[Hfree Hr] | [Htaken (k & Hk & Hr & Hfree & Hbelow)]].
  - left. by rewrite <- Hsame.
  - right. rewrite <- !Hsame. split; [done|]. exists k.
    split_and!; [done | done | done |]. intros j Hj. rewrite <- Hsame. auto.
Qed.

Example get_unique_name_free :
  get_unique_name (<[ ["r"; "b"] := Dir ]> (<[ ["r"] := Dir ]> ∅)) ["r"] "a" = "a".
Proof. reflexivity. Qed.

Example get_unique_name_collision :
  get_unique_name
    (<[ ["r"; "a (1)"] := File "" ]> (<[ ["r"; "a"] := Dir ]> (<[ ["r"] := Dir ]> ∅)))
    ["r"] "a" = "a (2)".
Proof. reflexivity. Qed.

(** ** Filesystem calls *)

Lemma mkdir_inr (m m' : fs) (p : path) :
  mkdir m p = inr m' →
  node_at m p = None ∧ node_at m (dirname p) = Some Dir ∧ m' = <[p := Dir]> m.
Proof.
  unfold mkdir. destruct (node_at m p); [done|].
  destruct (node_at m (dirname p)) as [[|?]|]; try done.
  by intros [= <-].
Qed.

(** [makedirs] only adds directories, on the way to its argument, and its
    argument is a directory afterwards. *)
Lemma makedirs_rev_spec (rname : list string) (m m' : fs) :
  makedirs_rev rname m = inr m' →
  node_at m' (rev rname) = Some Dir ∧
  ∀ q, m' !! q = m !! q ∨
       (m !! q = None ∧ m' !! q = Some Dir ∧ below q (rev rname)).
Proof.
  revert m m'. induction rname as [|tail rhead IH]; intros m m'; simpl.
  - intros [= <-]. split; [done | by left].
  - intros Hrun. apply bind_inr in Hrun as (m1 & Hhead & Hleaf).
    assert (∀ q, m1 !! q = m !! q ∨
              (m !! q = None ∧ m1 !! q = Some Dir ∧ below q (rev rhead))) as H1.
    { destruct (path_exists m (rev rhead)).
      - injection Hhead as <-. by left.
      - by apply IH in Hhead as [_ ?]. }
    assert (rev rhead ++ [tail] ≠ []) as Hne by (by destruct (rev rhead)).
    fold (join (rev rhead) tail) in *.
    destruct (mkdir m1 (join (rev rhead) tail)) as [e|m2] eqn:Hmk.
    + unfold isdir in Hleaf.
      destruct (node_at m1 (join (rev rhead) tail)) as [[|?]|] eqn:Hn; try done.
      injection Hleaf as <-. split; [done|].
      intros q. destruct (H1 q) as [? | (? & ? & ?)]; [by left | right].
      split_and!; [done | done | by apply below_join].
    + injection Hleaf as <-. apply mkdir_inr in Hmk as (Hnone & _ & ->).
      rewrite node_at_join in Hnone.
      split; [by rewrite node_at_join, lookup_insert_eq|].
      intros q. destruct (decide (q = join (rev rhead) tail)) as [-> | Hq].
      * right. rewrite lookup_insert_eq. split_and!; [|done|done].
        destruct (H1 (join (rev rhead) tail)) as [<- | (? & ? & ?)];
          [done | congruence].
      * rewrite lookup_insert_ne by done.
        destruct (H1 q) as [? | (? & ? & ?)]; [by left | right].
        split_and!; [done | done | by apply below_join].
Qed.

Lemma makedirs_spec (m m' : fs) (p : path) :
  makedirs m p = inr m' →
  node_at m' p = Some Dir ∧
  ∀ q, m' !! q = m !! q ∨ (m !! q = None ∧ m' !! q = Some Dir ∧ below q p).
Proof.
  unfold makedirs. intros Hrun. apply makedirs_rev_spec in Hrun.
  by rewrite rev_involutive in Hrun.
Qed.

Lemma makedirs_subseteq (m m' : fs) (p : path) : makedirs m p = inr m' → m ⊆ m'.
Proof.
  intros Hrun. apply makedirs_spec in Hrun as [_ Hq].
  apply map_subseteq_spec. intros q x Hx.
  destruct (Hq q) as [-> | (? & _)]; congruence.
Qed.

(** In a directory that exists, under a name that is free, [makedirs] is one
    [mkdir]. *)
Lemma makedirs_fresh (m : fs) (d : path) (n : string) :
  node_at m d = Some Dir → node_at m (join d n) = None →
  makedirs m (join d n) = inr (<[join d n := Dir]> m).
Proof.
  intros Hd Hn. unfold makedirs, join. rewrite rev_unit. simpl.
  rewrite rev_involutive. fold (join d n).
  unfold path_exists. rewrite Hd. simpl.
  unfold mkdir. by rewrite Hn, dirname_join, Hd.
Qed.

Lemma open_w_write_fresh (m : fs) (d : path) (n data : string) :
  node_at m d = Some Dir → node_at m (join d n) = None →
  open_w_write m (join d n) data = inr (<[join d n := File data]> m).
Proof. intros Hd Hn. unfold open_w_write. by rewrite Hn, dirname_join, Hd. Qed.

(** On a free path, [open] creates; it never gets to truncate. *)
Lemma open_w_write_inr_fresh (m m' : fs) (p : path) (data : string) :
  node_at m p = None → open_w_write m p data = inr m' →
  m' = <[p := File data]> m ∧ node_at m (dirname p) = Some Dir.
Proof.
  unfold open_w_write. intros ->.
  destruct (node_at m (dirname p)) as [[|?]|]; try done. by intros [= <-].
Qed.

Lemma rmtree_lookup (m m' : fs) (p q : path) :
  rmtree m p = inr m' → m' !! q = if decide (below p q) then None else m !! q.
Proof.
  unfold rmtree. destruct (node_at m p) as [[|?]|]; try done. intros [= <-].
  rewrite map_lookup_filter. destruct (m !! q) as [x|] eqn:Hq; simpl.
  - case_decide.
    + rewrite option_guard_False; [done | simpl; tauto].
    + by rewrite option_guard_True.
  - by case_decide.
Qed.

Lemma guarded_inr {A} (refusal : option string) (call : result A) a :
  guarded refusal call = inr a → refusal = None ∧ call = inr a.
Proof. by destruct refusal. Qed.

(** ** Well-formed filesystems *)

Lemma well_formed_ancestor (m : fs) (p k : path) :
  well_formed m → k ≠ [] → is_Some (m !! (p ++ k)) → node_at m p = Some Dir.
Proof.
  intros Hwf. induction k as [|x k IH] using rev_ind; [done|].
  intros _ [n Hn]. specialize (Hwf _ _ Hn). simpl in Hwf.
  rewrite app_assoc in Hwf. fold (join (p ++ k) x) in Hwf.
  rewrite dirname_join in Hwf.
  destruct k as [|y k]; [by rewrite app_nil_r in Hwf|].
  apply IH; [done|]. rewrite node_at_lookup in Hwf; [by eexists|].
  by destruct p.
Qed.

Lemma well_formed_insert (m : fs) (d : path) (n : string) (x : node) :
  well_formed m → node_at m d = Some Dir → m !! join d n = None →
  well_formed (<[join d n := x]> m).
Proof.
  intros Hwf Hd Hn.
  assert (∀ q, node_at m q = Some Dir → node_at (<[join d n := x]> m) q = Some Dir)
    as Hkeep.
  { intros [|a q] Hq; [done|]. simpl in *.
    rewrite lookup_insert_ne; [done | congruence]. }
  apply map_Forall_insert; [done|]. split.
  - rewrite dirname_join. by apply Hkeep.
  - intros q y Hq. apply Hkeep. by apply (Hwf q y).
Qed.

(** ** [random.choice] *)

Section ChoiceFacts.
Context `{RandomSource G} {A : Type}.
Implicit Types (g : G) (seq : list A).

Lemma choice_nil g :
  choice g (@nil A) = inl (IndexError "Cannot choose from an empty sequence").
Proof. done. Qed.

Lemma choice_cons g seq :
  seq ≠ [] →
  ∃ x, seq !! (randbelow g (length seq)).1 = Some x ∧
       choice g seq = inr (x, (randbelow g (length seq)).2).
Proof.
  intros Hne. pose proof (randbelow_lt g (length seq)) as Hlt.
  destruct seq as [|a seq]; [done|]. unfold choice.
  destruct (randbelow g (length (a :: seq))) as [i g'] eqn:Hdraw.
  simpl fst in *. simpl snd.
  destruct (lookup_lt_is_Some_2 (a :: seq) i) as [x Hx]; [apply Hlt; simpl; lia|].
  exists x. by rewrite Hx.
Qed.

Lemma choice_inr g seq x g' :
  choice g seq = inr (x, g') →
  x ∈ seq ∧ seq !! (randbelow g (length seq)).1 = Some x ∧
  g' = (randbelow g (length seq)).2.
Proof.
  intros Hc. destruct seq as [|a seq]; [done|].
  destruct (choice_cons g (a :: seq)) as (y & Hy & Hcy); [done|].
  rewrite Hcy in Hc. injection Hc as <- <-.
  split_and!; [by eapply list_elem_of_lookup_2 | done | done].
Qed.

Lemma choice_inl g seq e :
  choice g seq = inl e →
  seq = [] ∧ e = IndexError "Cannot choose from an empty sequence".
Proof.
  intros Hc. destruct seq as [|a seq]; [by injection Hc as <-|].
  destruct (choice_cons g (a :: seq)) as (y & _ & Hcy); [done|]. congruence.
Qed.
End ChoiceFacts.

(** ** Counting what is under the root *)

Section Counting.
Context {P : path * node → Prop} `{!∀ e, Decision (P e)}.

Lemma size_filter_insert_True (m : fs) (p : path) (x : node) :
  m !! p = None → P (p, x) →
  size (filter P (<[p := x]> m)) = S (size (filter P m)).
Proof.
  intros Hp HP. rewrite map_filter_insert_True by done.
  apply map_size_insert_None. by apply map_lookup_filter_None_2; left.
Qed.

Lemma size_filter_insert_False (m : fs) (p : path) (x : node) :
  m !! p = None → ¬ P (p, x) →
  size (filter P (<[p := x]> m)) = size (filter P m).
Proof.
  intros Hp HP. rewrite map_filter_insert_False by done.
  by rewrite delete_id.
Qed.

Lemma size_filter_none (m : fs) :
  (∀ p x, m !! p = Some x → ¬ P (p, x)) → size (filter P m) = 0%nat.
Proof.
  intros Hnone. apply map_size_empty_iff, map_empty_filter.
  intros p x Hp. by apply Hnone.
Qed.
End Counting.

Lemma inside_join (R d : path) (n : string) : below R d → inside R (join d n).
Proof.
  intros Hb. split; [by apply below_join|].
  intros Heq. rewrite <- Heq in Hb. by apply join_not_below in Hb.
Qed.

Lemma folders_under_mkdir (R : path) (m : fs) (p : path) :
  m !! p = None → inside R p →
  folders_under R (<[p := Dir]> m) = S (folders_under R m) ∧
  files_under R (<[p := Dir]> m) = files_under R m.
Proof.
  intros Hp Hin. unfold folders_under, files_under. split.
  - by apply size_filter_insert_True.
  - apply size_filter_insert_False; [done | simpl; by intros [_ ?]].
Qed.

Lemma files_under_create (R : path) (m : fs) (p : path) (data : string) :
  m !! p = None → inside R p →
  folders_under R (<[p := File data]> m) = folders_under R m ∧
  files_under R (<[p := File data]> m) = S (files_under R m).
Proof.
  intros Hp Hin. unfold folders_under, files_under. split.
  - apply size_filter_insert_False; [done | simpl; by intros [_ ?]].
  - by apply size_filter_insert_True.
Qed.

(** ** The root reset *)

Section Reset.
Variable c : config.
Variable E : faults.

(** After a reset that went through, the root is an empty directory. *)
Lemma reset_root_empty (m m1 : fs) :
  well_formed m → reset_root c E m = inr m1 →
  node_at m1 (ROOT_FOLDER c) = Some Dir ∧
  ∀ q, inside (ROOT_FOLDER c) q → m1 !! q = None.
Proof.
  intros Hwf Hreset. unfold reset_root in Hreset.
  apply bind_inr in Hreset as (m0 & Hrm & Hmk).
  assert (∀ q, inside (ROOT_FOLDER c) q → m0 !! q = None) as Hgone.
  { intros q [Hb Hne]. unfold remove_root in Hrm.
    destruct (path_exists m (ROOT_FOLDER c)) eqn:Hex.
    - apply guarded_inr in Hrm as [_ Hrm].
      rewrite (rmtree_lookup _ _ _ q Hrm). by rewrite decide_True.
    - injection Hrm as <-. apply path_exists_false in Hex.
      destruct (m !! q) as [x|] eqn:Hq; [|done].
      destruct Hb as [k ->].
      rewrite (well_formed_ancestor m (ROOT_FOLDER c) k) in Hex; [done | done | | by eexists].
      intros ->. by rewrite app_nil_r in Hne. }
  unfold make_root in Hmk. apply guarded_inr in Hmk as [_ Hmk].
  apply makedirs_spec in Hmk as [Hroot Hq]. split; [done|].
  intros q Hin. destruct (Hq q) as [-> | (_ & _ & Hb)]; [by apply Hgone|].
  destruct Hin as [Hb' Hne]. destruct Hne. by apply below_antisym.
Qed.
End Reset.

(** ** Invariants of the two loops *)

Section Invariants.
Context {G : Type} `{!RandomSource G}.
Variable c : config.
Variable E : faults.

Abbreviation R := (ROOT_FOLDER c).
Implicit Types (st : @state G) (m : fs) (p q d : path) (fl : list (path * Z))
  (j : list (path * node)).

(** *** What the loops keep true of the registry *)

Lemma depth_ok_root : depth_ok c [(R, 0)].
Proof.
  split; intros p dp [= -> ->]%list_elem_of_singleton; [|done].
  exists []. by rewrite app_nil_r.
Qed.

Lemma depth_ok_append fl d dd (n : string) :
  depth_ok c fl → (d, dd) ∈ fl → dd < MAX_DEPTH c - 1 →
  depth_ok c (fl ++ [(join d n, dd + 1)]).
Proof.
  intros [Htrue Hparent] Hd Hdd. split; intros p dp Hp.
  - apply elem_of_app in Hp as [Hp | [= -> ->]%list_elem_of_singleton]; [eauto|].
    destruct (Htrue _ _ Hd) as (k & -> & ->). exists (k ++ [n]).
    unfold join. rewrite app_assoc, length_app. simpl. split; [done | lia].
  - intros Hne. apply elem_of_app in Hp as [Hp | [= -> ->]%list_elem_of_singleton].
    + destruct (Hparent _ _ Hp Hne) as [? ?]. split; [|done].
      apply elem_of_app. by left.
    + rewrite dirname_join. replace (dd + 1 - 1) with dd by lia.
      split; [|done]. apply elem_of_app. by left.
Qed.

Lemma depth_ok_bound fl p dp :
  depth_ok c fl → (p, dp) ∈ fl →
  0 ≤ dp ∧ (1 ≤ MAX_DEPTH c → dp < MAX_DEPTH c) ∧ (p = R ↔ dp = 0).
Proof.
  intros [Htrue Hparent] Hp. destruct (Htrue _ _ Hp) as (k & -> & ->).
  split; [lia|]. destruct k as [|x k].
  - rewrite app_nil_r. split; [simpl; lia | done].
  - assert (R ++ x :: k ≠ R) as Hne.
    { intros Heq. apply (f_equal length) in Heq.
      rewrite length_app in Heq. simpl in Heq. lia. }
    destruct (Hparent _ _ Hp Hne) as [_ ?]. split; [lia|].
    split; [done | simpl; lia].
Qed.

(** *** What the loops keep true of the tree *)

Lemma node_at_insert m p q (x : node) :
  m !! p = None → node_at m q = Some Dir → node_at (<[p := x]> m) q = Some Dir.
Proof.
  intros Hp Hq. destruct q as [|a q]; [done|]. simpl in *.
  rewrite lookup_insert_ne; [done | congruence].
Qed.

Lemma last_join d (n : string) : List.last (join d n) "" = n.
Proof. apply last_last. Qed.

Lemma tree_ok_add m fl j nfolders nfiles d dd (n : string) (x : node) extra :
  tree_ok c m fl j nfolders nfiles →
  (d, dd) ∈ fl → m !! join d n = None →
  (x = Dir ∧ ∃ dn, extra = [(join d n, dn)]) ∨ (x = File "" ∧ extra = []) →
  tree_ok c (<[join d n := x]> m) (fl ++ extra) (j ++ [(join d n, x)])
    (if is_dir x then nfolders + 1 else nfolders)
    (if is_dir x then nfiles else nfiles + 1).
Proof.
  intros [Hreg Hroot Hnd Hj Hpar Hdirs Hfiles Hnf Hnfi] Hd Hfree Hx.
  destruct (Hreg _ _ Hd) as [Hddir Hdbelow].
  pose proof (inside_join R d n Hdbelow) as Hin.
  split.
  - intros p dp Hp. apply elem_of_app in Hp as [Hp | Hp].
    + destruct (Hreg _ _ Hp). split; [by apply node_at_insert | done].
    + destruct Hx as [[-> (dn & ->)] | [_ ->]]; [|by apply elem_of_nil in Hp].
      apply list_elem_of_singleton in Hp as [= -> ->].
      rewrite node_at_join, lookup_insert_eq. split; [done | by apply Hin].
  - apply elem_of_app. by left.
  - rewrite fmap_app. apply NoDup_app. split_and!; [done | | apply NoDup_singleton].
    intros p Hp ->%list_elem_of_singleton.
    apply list_elem_of_fmap in Hp as ([p' y] & Heq & Hp). simpl in Heq.
    apply Hj in Hp as [Hp _]. congruence.
  - intros p y. rewrite elem_of_app, list_elem_of_singleton, Hj. split.
    + intros [[Hp ?] | [= -> ->]].
      * split; [|done]. rewrite lookup_insert_ne; [done | congruence].
      * by rewrite lookup_insert_eq.
    + intros [Hp ?]. destruct (decide (p = join d n)) as [-> | Hne].
      * rewrite lookup_insert_eq in Hp. injection Hp as ->. by right.
      * rewrite lookup_insert_ne in Hp by done. by left.
  - intros p y Hp. apply elem_of_app in Hp as [Hp | [= -> ->]%list_elem_of_singleton].
    + destruct (Hpar _ _ Hp) as [? [dp ?]]. split; [done|].
      exists dp. apply elem_of_app. by left.
    + rewrite dirname_join, last_join. split; [done|].
      exists dd. apply elem_of_app. by left.
  - intros p Hp. apply elem_of_app in Hp as [Hp | Hp%list_elem_of_singleton].
    + destruct (Hdirs _ Hp) as [dp ?]. exists dp. apply elem_of_app. by left.
    + injection Hp as -> <-. destruct Hx as [[_ (dn & ->)] | [? _]]; [|done].
      exists dn. apply elem_of_app. right. by apply list_elem_of_singleton.
  - intros p y Hp. apply elem_of_app in Hp as [Hp | Hp%list_elem_of_singleton];
      [by eapply Hfiles|].
    injection Hp as -> <-. by destruct Hx as [[? _] | [[= ->] _]].
  - destruct Hx as [[-> _] | [-> _]]; simpl.
    + destruct (folders_under_mkdir R m (join d n) Hfree Hin) as [-> _]. lia.
    + by destruct (files_under_create R m (join d n) "" Hfree Hin) as [-> _].
  - destruct Hx as [[-> _] | [-> _]]; simpl.
    + by destruct (folders_under_mkdir R m (join d n) Hfree Hin) as [_ ->].
    + destruct (files_under_create R m (join d n) "" Hfree Hin) as [_ ->]. lia.
Qed.

Lemma tree_inv_initial m1 :
  node_at m1 R = Some Dir → (∀ q, inside R q → m1 !! q = None) →
  tree_inv c (initial c m1).
Proof.
  intros Hroot Hempty. unfold tree_inv. simpl. split.
  - intros p dp [= -> ->]%list_elem_of_singleton. done.
  - by apply list_elem_of_singleton.
  - apply NoDup_nil_2.
  - intros p n. split; [by intros ?%elem_of_nil|].
    intros [Hp Hin]. rewrite Hempty in Hp; done.
  - by intros p n ?%elem_of_nil.
  - by intros p ?%elem_of_nil.
  - by intros p x ?%elem_of_nil.
  - unfold folders_under. rewrite size_filter_none; [done|].
    intros p x Hp [Hin _]. simpl in Hin. rewrite Hempty in Hp; done.
  - unfold files_under. rewrite size_filter_none; [done|].
    intros p x Hp [Hin _]. simpl in Hin. rewrite Hempty in Hp; done.
Qed.
End Invariants.

(** ** One iteration *)

Section Iterations.
Context {G : Type} `{!RandomSource G}.
Variable c : config.
Variable E : faults.

Abbreviation R := (ROOT_FOLDER c).
Implicit Types (st : @state G) (m : fs) (p q d : path) (e : exn).

(** The draws of the folder loop: the parent passed the filter, and the name
    is a name of the pool made unique in the parent. *)
Lemma folder_draw_inr st parent depth name g2 :
  folder_draw c st = inr (parent, depth, name, g2) →
  (parent, depth) ∈ folder_list st ∧ depth < MAX_DEPTH c - 1 ∧
  ∃ base, base ∈ NAMES_LIST c ∧ name = get_unique_name (files st) parent base.
Proof.
  unfold folder_draw. intros Hdraw.
  apply bind_inr in Hdraw as ([[p dp] g1] & Hparent & Hdraw).
  apply bind_inr in Hdraw as ([base g2'] & Hbase & Hdraw).
  injection Hdraw as <- <- <- <-.
  apply choice_inr in Hparent as [Hparent _].
  apply choice_inr in Hbase as [Hbase _].
  apply list_elem_of_filter in Hparent as [Hdp Hparent]. simpl in Hdp.
  split_and!; [done | done | by exists base].
Qed.

(** They raise only [IndexError], when there is nothing to choose from. *)
Lemma folder_draw_inl st e :
  folder_draw c st = inl e →
  e = empty_sequence ∧
  (valid_folders c (folder_list st) = [] ∨ NAMES_LIST c = []).
Proof.
  unfold folder_draw. intros Hdraw.
  apply bind_inl in Hdraw as [Hparent | ([[p dp] g1] & _ & Hdraw)].
  - apply choice_inl in Hparent as [-> ->]. split; [done | by left].
  - apply bind_inl in Hdraw as [Hbase | ([base g2] & _ & ?)]; [|done].
    apply choice_inl in Hbase as [-> ->]. split; [done | by right].
Qed.

Lemma file_draw_inr st target name g2 :
  file_draw c st = inr (target, name, g2) →
  (∃ dp, (target, dp) ∈ folder_list st) ∧
  ∃ base, base ∈ NAMES_LIST c ∧ name = get_unique_name (files st) target base.
Proof.
  unfold file_draw. intros Hdraw.
  apply bind_inr in Hdraw as ([[p dp] g1] & Htarget & Hdraw).
  apply bind_inr in Hdraw as ([base g2'] & Hbase & Hdraw).
  injection Hdraw as <- <- <-.
  apply choice_inr in Htarget as [Htarget _].
  apply choice_inr in Hbase as [Hbase _].
  split; [by exists dp | by exists base].
Qed.

Lemma file_draw_inl st e :
  file_draw c st = inl e →
  e = empty_sequence ∧ (folder_list st = [] ∨ NAMES_LIST c = []).
Proof.
  unfold file_draw. intros Hdraw.
  apply bind_inl in Hdraw as [Htarget | ([[p dp] g1] & _ & Hdraw)].
  - apply choice_inl in Htarget as [-> ->]. split; [done | by left].
  - apply bind_inl in Hdraw as [Hbase | ([base g2] & _ & ?)]; [|done].
    apply choice_inl in Hbase as [-> ->]. split; [done | by right].
Qed.

(** The ways through the body of each loop. *)
Lemma folder_iteration_inr st st' :
  folder_iteration c E st = inr st' →
  ∃ parent depth name g2,
    folder_draw c st = inr (parent, depth, name, g2) ∧
    ((∃ m, try_makedirs E st (join parent name) = inr m ∧
           st' = folder_done st g2 m (join parent name) depth) ∨
     (∃ e, try_makedirs E st (join parent name) = inl e ∧
           st' = folder_failed st g2 e)).
Proof.
  unfold folder_iteration. intros Hit.
  apply bind_inr in Hit as ([[[parent depth] name] g2] & Hdraw & Hit).
  exists parent, depth, name, g2. split; [done|].
  destruct (try_makedirs E st (join parent name)) as [e|m];
    injection Hit as <-; [right | left]; eauto.
Qed.

Lemma folder_iteration_inl st e :
  folder_iteration c E st = inl e → folder_draw c st = inl e.
Proof.
  unfold folder_iteration. intros Hit.
  apply bind_inl in Hit as [? | ([[[parent depth] name] g2] & _ & Hit)]; [done|].
  by destruct (try_makedirs E st (join parent name)).
Qed.

Lemma file_iteration_inr st st' :
  file_iteration c E st = inr st' →
  ∃ target name g2,
    file_draw c st = inr (target, name, g2) ∧
    ((∃ m, try_open E st (join target name) = inr m ∧
           st' = file_done st g2 m (join target name)) ∨
     (∃ e, try_open E st (join target name) = inl e ∧
           st' = file_failed st g2 e)).
Proof.
  unfold file_iteration. intros Hit.
  apply bind_inr in Hit as ([[target name] g2] & Hdraw & Hit).
  exists target, name, g2. split; [done|].
  destruct (try_open E st (join target name)) as [e|m];
    injection Hit as <-; [right | left]; eauto.
Qed.

Lemma file_iteration_inl st e :
  file_iteration c E st = inl e → file_draw c st = inl e.
Proof.
  unfold file_iteration. intros Hit.
  apply bind_inl in Hit as [? | ([[target name] g2] & _ & Hit)]; [done|].
  by destruct (try_open E st (join target name)).
Qed.

(** In a directory of the registry, under a resolved name, the creation
    call fails only when the environment refuses it. *)
Lemma try_makedirs_registered st parent depth base :
  tree_inv c st → (parent, depth) ∈ folder_list st →
  let new_folder := join parent (get_unique_name (files st) parent base) in
  files st !! new_folder = None ∧
  try_makedirs E st new_folder =
    match item_fault E (attempts st) with
    | Some msg => inl (OSError msg)
    | None => inr (<[new_folder := Dir]> (files st))
    end.
Proof.
  intros Hinv Hparent. cbv zeta.
  pose proof (get_unique_name_fresh (files st) parent base) as Hfree.
  split; [by rewrite <- node_at_join|].
  unfold try_makedirs. destruct (item_fault E (attempts st)); [done|]. simpl.
  apply makedirs_fresh; [|done]. by apply (tree_registry _ _ _ _ _ _ Hinv _ depth).
Qed.

Lemma try_open_registered st target depth base :
  tree_inv c st → (target, depth) ∈ folder_list st →
  let file_path := join target (get_unique_name (files st) target base) in
  files st !! file_path = None ∧
  try_open E st file_path =
    match item_fault E (attempts st) with
    | Some msg => inl (OSError msg)
    | None => inr (<[file_path := File ""]> (files st))
    end.
Proof.
  intros Hinv Htarget. cbv zeta.
  pose proof (get_unique_name_fresh (files st) target base) as Hfree.
  split; [by rewrite <- node_at_join|].
  unfold try_open. destruct (item_fault E (attempts st)); [done|]. simpl.
  apply open_w_write_fresh; [|done]. by apply (tree_registry _ _ _ _ _ _ Hinv _ depth).
Qed.

(** Both bodies keep both invariants. *)
Lemma folder_iteration_depth st st' :
  depth_inv c st → folder_iteration c E st = inr st' → depth_inv c st'.
Proof.
  intros Hinv Hit.
  apply folder_iteration_inr in Hit
    as (parent & depth & name & g2 & Hdraw & [(m & _ & ->) | (e & _ & ->)]);
    [|done].
  apply folder_draw_inr in Hdraw as (Hparent & Hdepth & _).
  by apply depth_ok_append.
Qed.

Lemma file_iteration_depth st st' :
  depth_inv c st → file_iteration c E st = inr st' → depth_inv c st'.
Proof.
  intros Hinv Hit.
  by apply file_iteration_inr in Hit
    as (target & name & g2 & _ & [(m & _ & ->) | (e & _ & ->)]).
Qed.

Lemma folder_iteration_tree st st' :
  tree_inv c st → folder_iteration c E st = inr st' → tree_inv c st'.
Proof.
  intros Hinv Hit.
  apply folder_iteration_inr in Hit
    as (parent & depth & name & g2 & Hdraw & [(m & Htry & ->) | (e & _ & ->)]);
    [|done].
  apply folder_draw_inr in Hdraw as (Hparent & _ & base & _ & ->).
  destruct (try_makedirs_registered st parent depth base Hinv Hparent)
    as [Hfree Hcall].
  rewrite Hcall in Htry. destruct (item_fault E (attempts st)); [done|].
  injection Htry as <-.
  apply (tree_ok_add c _ _ _ _ _ parent depth _ Dir
           [(join parent (get_unique_name (files st) parent base), depth + 1)]
           Hinv Hparent Hfree).
  left. eauto.
Qed.

Lemma file_iteration_tree st st' :
  tree_inv c st → file_iteration c E st = inr st' → tree_inv c st'.
Proof.
  intros Hinv Hit.
  apply file_iteration_inr in Hit
    as (target & name & g2 & Hdraw & [(m & Htry & ->) | (e & _ & ->)]);
    [|done].
  apply file_draw_inr in Hdraw as ([depth Htarget] & base & _ & ->).
  destruct (try_open_registered st target depth base Hinv Htarget)
    as [Hfree Hcall].
  rewrite Hcall in Htry. destruct (item_fault E (attempts st)); [done|].
  injection Htry as <-.
  pose proof (tree_ok_add c _ _ _ _ _ target depth _ (File "") []
                Hinv Htarget Hfree) as Hadd.
  unfold tree_inv, file_done. simpl in *. rewrite app_nil_r in Hadd.
  apply Hadd. by right.
Qed.
End Iterations.

(** ** The loops and the whole run *)

Section Loops.
Context {G : Type} `{!RandomSource G}.
Variable c : config.
Variable E : faults.

Implicit Types (st : @state G) (m : fs) (e : exn) (P : @state G → Prop).

(** Whatever the body keeps, the loop keeps, however it ends. *)
Lemma folder_loop_invariant P nfolders fuel st :
  (∀ s s', P s → created_folders s < nfolders →
           folder_iteration c E s = inr s' → P s') →
  P st → P (final (folder_loop c E nfolders fuel st)).
Proof.
  intros Hstep. revert st.
  induction fuel as [|fuel IH]; intros st HP; simpl; case_bool_decide; try done.
  destruct (folder_iteration c E st) as [e|st'] eqn:Hit; simpl; eauto.
Qed.

Lemma file_loop_invariant P nfiles fuel st :
  (∀ s s', P s → created_files s < nfiles →
           file_iteration c E s = inr s' → P s') →
  P st → P (final (file_loop c E nfiles fuel st)).
Proof.
  intros Hstep. revert st.
  induction fuel as [|fuel IH]; intros st HP; simpl; case_bool_decide; try done.
  destruct (file_iteration c E st) as [e|st'] eqn:Hit; simpl; eauto.
Qed.

(** How each loop can end. *)
Lemma folder_loop_ends nfolders fuel st :
  match folder_loop c E nfolders fuel st with
  | Completed st' => ¬ created_folders st' < nfolders
  | Aborted e st' =>
      created_folders st' < nfolders ∧ folder_iteration c E st' = inl e
  | Unfinished st' => created_folders st' < nfolders
  end.
Proof.
  revert st. induction fuel as [|fuel IH]; intros st; simpl;
    case_bool_decide; try done.
  destruct (folder_iteration c E st) as [e|st'] eqn:Hit; [done | apply IH].
Qed.

Lemma file_loop_ends nfiles fuel st :
  match file_loop c E nfiles fuel st with
  | Completed st' => ¬ created_files st' < nfiles
  | Aborted e st' =>
      created_files st' < nfiles ∧ file_iteration c E st' = inl e
  | Unfinished st' => created_files st' < nfiles
  end.
Proof.
  revert st. induction fuel as [|fuel IH]; intros st; simpl;
    case_bool_decide; try done.
  destruct (file_iteration c E st) as [e|st'] eqn:Hit; [done | apply IH].
Qed.

(** The counters move by one at most, each in its own loop, and the file
    loop leaves the registry alone. *)
Lemma folder_iteration_counters st st' :
  folder_iteration c E st = inr st' →
  created_files st' = created_files st ∧
  (created_folders st' = created_folders st ∨
   created_folders st' = created_folders st + 1).
Proof.
  intros Hit. apply folder_iteration_inr in Hit
    as (parent & depth & name & g2 & _ & [(m & _ & ->) | (e & _ & ->)]);
    simpl; auto.
Qed.

Lemma file_iteration_counters st st' :
  file_iteration c E st = inr st' →
  created_folders st' = created_folders st ∧
  folder_list st' = folder_list st ∧
  (created_files st' = created_files st ∨
   created_files st' = created_files st + 1).
Proof.
  intros Hit. apply file_iteration_inr in Hit
    as (target & name & g2 & _ & [(m & _ & ->) | (e & _ & ->)]);
    simpl; auto.
Qed.

Lemma folder_loop_counters nfolders fuel st :
  created_folders st ≤ Z.max 0 nfolders →
  let st' := final (folder_loop c E nfolders fuel st) in
  created_folders st ≤ created_folders st' ≤ Z.max 0 nfolders ∧
  created_files st' = created_files st.
Proof.
  intros Hle.
  apply (folder_loop_invariant
           (λ s, created_folders st ≤ created_folders s ≤ Z.max 0 nfolders ∧
                 created_files s = created_files st)); [|lia].
  intros s s' [? ?] ? Hit.
  apply folder_iteration_counters in Hit as [? [? | ?]]; lia.
Qed.

Lemma file_loop_counters nfiles fuel st :
  created_files st ≤ Z.max 0 nfiles →
  let st' := final (file_loop c E nfiles fuel st) in
  created_files st ≤ created_files st' ≤ Z.max 0 nfiles ∧
  created_folders st' = created_folders st ∧
  folder_list st' = folder_list st.
Proof.
  intros Hle.
  apply (file_loop_invariant
           (λ s, created_files st ≤ created_files s ≤ Z.max 0 nfiles ∧
                 created_folders s = created_folders st ∧
                 folder_list s = folder_list st)); [|split; [lia | done]].
  intros s s' (? & ? & ?) ? Hit.
  apply file_iteration_counters in Hit as (? & ? & [? | ?]);
    split_and!; try congruence; lia.
Qed.

(** The run, once the reset and the computation of [num_folders] went
    through. *)
Lemma generate_loops m m1 nfolders fuel :
  reset_root c E m = inr m1 → num_folders c = inr nfolders →
  generate c E m fuel =
    closing nfolders (TOTAL_ITEMS c - nfolders)
      (both_loops c E nfolders fuel (initial c m1)).
Proof.
  unfold reset_root, generate, both_loops. intros Hreset ->.
  apply bind_inr in Hreset as (m0 & -> & ->). cbv zeta.
  destruct (folder_loop c E nfolders fuel (initial c m1)); reflexivity.
Qed.

(** The summary line changes the output only, and only of a run that
    completed. *)
Lemma closing_final (P : @state G → Prop) nfolders nfiles (o : @outcome G) :
  (∀ s, P s → P (print_summary nfolders nfiles s)) →
  P (final o) → P (final (closing nfolders nfiles o)).
Proof. intros Hprint. destruct o; simpl; auto. Qed.

Lemma closing_completed nfolders nfiles (o : @outcome G) st :
  closing nfolders nfiles o = Completed st →
  ∃ st', o = Completed st' ∧ st = print_summary nfolders nfiles st'.
Proof. destruct o; intros [= <-]; eauto. Qed.


Lemma both_loops_invariant P nfolders fuel st :
  (∀ s s', P s → folder_iteration c E s = inr s' → P s') →
  (∀ s s', P s → file_iteration c E s = inr s' → P s') →
  P st → P (final (both_loops c E nfolders fuel st)).
Proof.
  intros Hfolder Hfile Hinit. unfold both_loops.
  pose proof (folder_loop_invariant P nfolders fuel st) as H1.
  destruct (folder_loop c E nfolders fuel st) as [st1|e st1|st1];
    simpl in H1; [|by eauto..].
  apply file_loop_invariant; eauto.
Qed.

(** The loops of a run that completed, and of one that an iteration
    ended. *)
Lemma generate_completed_loops m m1 nfolders fuel st :
  reset_root c E m = inr m1 → num_folders c = inr nfolders →
  generate c E m fuel = Completed st →
  ∃ st1 st2,
    folder_loop c E nfolders fuel (initial c m1) = Completed st1 ∧
    file_loop c E (TOTAL_ITEMS c - nfolders) fuel st1 = Completed st2 ∧
    st = print_summary nfolders (TOTAL_ITEMS c - nfolders) st2.
Proof.
  intros Hreset Hnum Hrun.
  rewrite (generate_loops _ _ _ _ Hreset Hnum) in Hrun.
  apply closing_completed in Hrun as (st2 & Hrun & ->). unfold both_loops in Hrun.
  destruct (folder_loop c E nfolders fuel (initial c m1)) as [st1|e st1|st1];
    try done.
  eauto.
Qed.


(** A failed reset ends the run. *)
Lemma generate_reset_failed m e fuel :
  reset_root c E m = inl e →
  ∃ m', generate c E m fuel = Aborted e (unbound c m').
Proof.
  unfold reset_root, generate. intros Hreset.
  apply bind_inl in Hreset as [-> | (m0 & -> & ->)]; eauto.
Qed.

Lemma generate_invariant P m m1 nfolders fuel :
  reset_root c E m = inr m1 → num_folders c = inr nfolders →
  (∀ s s', P s → folder_iteration c E s = inr s' → P s') →
  (∀ s s', P s → file_iteration c E s = inr s' → P s') →
  (∀ s a b, P s → P (print_summary a b s)) →
  P (initial c m1) → P (final (generate c E m fuel)).
Proof.
  intros Hreset Hnum Hfolder Hfile Hprint Hinit.
  rewrite (generate_loops _ _ _ _ Hreset Hnum).
  apply closing_final; [by auto|]. by apply both_loops_invariant.
Qed.

(** Both invariants hold of the state in which a run ends. *)
Lemma generate_tree_inv m m1 nfolders fuel :
  well_formed m →
  reset_root c E m = inr m1 → num_folders c = inr nfolders →
  tree_inv c (final (generate c E m fuel)).
Proof.
  intros Hwf Hreset Hnum.
  apply (generate_invariant _ _ _ _ _ Hreset Hnum).
  - intros s s'. apply folder_iteration_tree.
  - intros s s'. apply file_iteration_tree.
  - by intros s a b Hs.
  - destruct (reset_root_empty c E m m1 Hwf Hreset). by apply tree_inv_initial.
Qed.

Lemma generate_depth_inv m m1 nfolders fuel :
  reset_root c E m = inr m1 → num_folders c = inr nfolders →
  depth_inv c (final (generate c E m fuel)).
Proof.
  intros Hreset Hnum.
  apply (generate_invariant _ _ _ _ _ Hreset Hnum).
  - intros s s'. apply folder_iteration_depth.
  - intros s s'. apply file_iteration_depth.
  - by intros s a b Hs.
  - apply depth_ok_root.
Qed.

(** The counters of a run that completed. *)
Lemma generate_completed_counters m fuel st nfolders :
  generate c E m fuel = Completed st → num_folders c = inr nfolders →
  created_folders st = Z.max 0 nfolders ∧
  created_files st = Z.max 0 (TOTAL_ITEMS c - nfolders).
Proof.
  intros Hrun Hnum.
  destruct (reset_root c E m) as [e|m1] eqn:Hreset.
  { destruct (generate_reset_failed m e fuel Hreset) as [m' ?]. congruence. }
  destruct (generate_completed_loops _ _ _ _ _ Hreset Hnum Hrun)
    as (st1 & st2 & Hrun1 & Hrun2 & ->).
  pose proof (folder_loop_ends nfolders fuel (initial c m1)) as Hend1.
  pose proof (folder_loop_counters nfolders fuel (initial c m1)) as Hcnt1.
  rewrite Hrun1 in Hend1, Hcnt1.
  simpl in Hcnt1. destruct Hcnt1 as [Hle1 Hfiles1]; [lia|].
  pose proof (file_loop_ends (TOTAL_ITEMS c - nfolders) fuel st1) as Hend2.
  pose proof (file_loop_counters (TOTAL_ITEMS c - nfolders) fuel st1) as Hcnt2.
  rewrite Hrun2 in Hend2, Hcnt2. simpl in Hcnt2 |- *.
  destruct Hcnt2 as (Hle2 & Hfolders2 & _); lia.
Qed.
End Loops.

(** ** Progress: without refusals, every iteration creates *)

Section Progress.
Context {G : Type} `{!RandomSource G}.
Variable c : config.
Variable E : faults.
Hypothesis no_refusal : ∀ k, item_fault E k = None.
Hypothesis pool_not_empty : NAMES_LIST c ≠ [].

Implicit Types (st : @state G) (m : fs).

Lemma folder_iteration_progress st :
  2 ≤ MAX_DEPTH c → tree_inv c st →
  ∃ st', folder_iteration c E st = inr st' ∧
         created_folders st' = created_folders st + 1.
Proof.
  intros Hmax Hinv.
  destruct (folder_iteration c E st) as [e|st'] eqn:Hit.
  - apply folder_iteration_inl, folder_draw_inl in Hit as [_ [Hnone | ?]]; [|done].
    pose proof (tree_root _ _ _ _ _ _ Hinv) as Hroot.
    assert ((ROOT_FOLDER c, 0) ∈ valid_folders c (folder_list st)) as Hvalid.
    { apply list_elem_of_filter. split; [simpl; lia | done]. }
    rewrite Hnone in Hvalid. by apply elem_of_nil in Hvalid.
  - exists st'. split; [done|].
    apply folder_iteration_inr in Hit
      as (parent & depth & name & g2 & Hdraw & [(m & _ & ->) | (e & Htry & _)]);
      [done|].
    apply folder_draw_inr in Hdraw as (Hparent & _ & base & _ & ->).
    destruct (try_makedirs_registered c E st parent depth base Hinv Hparent)
      as [_ Hcall].
    rewrite Hcall, no_refusal in Htry. done.
Qed.

Lemma file_iteration_progress st :
  tree_inv c st →
  ∃ st', file_iteration c E st = inr st' ∧
         created_files st' = created_files st + 1.
Proof.
  intros Hinv.
  destruct (file_iteration c E st) as [e|st'] eqn:Hit.
  - apply file_iteration_inl, file_draw_inl in Hit as [_ [Hnone | ?]]; [|done].
    pose proof (tree_root _ _ _ _ _ _ Hinv) as Hroot.
    rewrite Hnone in Hroot. by apply elem_of_nil in Hroot.
  - exists st'. split; [done|].
    apply file_iteration_inr in Hit
      as (target & name & g2 & Hdraw & [(m & _ & ->) | (e & Htry & _)]);
      [done|].
    apply file_draw_inr in Hdraw as ([depth Htarget] & base & _ & ->).
    destruct (try_open_registered c E st target depth base Hinv Htarget)
      as [_ Hcall].
    rewrite Hcall, no_refusal in Htry. done.
Qed.

Lemma folder_loop_live nfolders fuel st :
  2 ≤ MAX_DEPTH c → tree_inv c st →
  nfolders - created_folders st ≤ Z.of_nat fuel →
  ∃ st', folder_loop c E nfolders fuel st = Completed st'.
Proof.
  intros Hmax. revert st. induction fuel as [|fuel IH]; intros st Hinv Hfuel;
    simpl; case_bool_decide; eauto; [lia|].
  destruct (folder_iteration_progress st Hmax Hinv) as (st' & Hit & Hcount).
  rewrite Hit. apply IH; [|lia]. by eapply folder_iteration_tree.
Qed.

Lemma file_loop_live nfiles fuel st :
  tree_inv c st →
  nfiles - created_files st ≤ Z.of_nat fuel →
  ∃ st', file_loop c E nfiles fuel st = Completed st'.
Proof.
  revert st. induction fuel as [|fuel IH]; intros st Hinv Hfuel;
    simpl; case_bool_decide; eauto; [lia|].
  destruct (file_iteration_progress st Hinv) as (st' & Hit & Hcount).
  rewrite Hit. apply IH; [|lia]. by eapply file_iteration_tree.
Qed.

(** A run that nothing refuses completes, within as many iterations of each
    loop as the loop has entries to create. *)
Lemma generate_live m m1 nfolders fuel :
  2 ≤ MAX_DEPTH c → well_formed m →
  reset_root c E m = inr m1 → num_folders c = inr nfolders →
  nfolders ≤ Z.of_nat fuel → TOTAL_ITEMS c - nfolders ≤ Z.of_nat fuel →
  ∃ st, generate c E m fuel = Completed st.
Proof.
  intros Hmax Hwf Hreset Hnum Hfuel1 Hfuel2.
  rewrite (generate_loops c E _ _ _ _ Hreset Hnum). unfold both_loops.
  assert (tree_inv c (initial c m1)) as Hinit.
  { destruct (reset_root_empty c E m m1 Hwf Hreset). by apply tree_inv_initial. }
  destruct (folder_loop_live nfolders fuel (initial c m1) Hmax Hinit) as [st1 Hst1];
    [simpl; lia|].
  pose proof (folder_loop_invariant c E (tree_inv c) nfolders fuel (initial c m1))
    as Hinv1.
  pose proof (folder_loop_counters c E nfolders fuel (initial c m1)) as Hcnt1.
  rewrite Hst1 in Hinv1, Hcnt1 |- *. simpl in Hinv1, Hcnt1.
  destruct Hcnt1 as [_ Hfiles1]; [lia|].
  destruct (file_loop_live (TOTAL_ITEMS c - nfolders) fuel st1) as [st2 Hst2];
    [|lia|rewrite Hst2; simpl; eauto].
  apply Hinv1; [|done]. intros s s' ? _. by apply folder_iteration_tree.
Qed.
End Progress.

(** ** Progress when the refusals come to an end *)

Section Settled.
Context {G : Type} `{!RandomSource G}.
Variable c : config.
Variable E : faults.
Variable N : nat.
Hypothesis refusals_end : ∀ k, (N ≤ k)%nat → item_fault E k = None.
Hypothesis pool_not_empty : NAMES_LIST c ≠ [].

Implicit Types (st : @state G) (m : fs).

(** An iteration makes one creation call, and creates unless the call is one
    of the first [N]. *)
Lemma folder_iteration_step st :
  2 ≤ MAX_DEPTH c → tree_inv c st →
  ∃ st', folder_iteration c E st = inr st' ∧
         attempts st' = S (attempts st) ∧
         (created_folders st' = created_folders st + 1 ∨
          (created_folders st' = created_folders st ∧ (attempts st < N)%nat)).
Proof.
  intros Hmax Hinv.
  destruct (folder_iteration c E st) as [e|st'] eqn:Hit.
  - apply folder_iteration_inl, folder_draw_inl in Hit as [_ [Hnone | ?]]; [|done].
    pose proof (tree_root _ _ _ _ _ _ Hinv) as Hroot.
    assert ((ROOT_FOLDER c, 0) ∈ valid_folders c (folder_list st)) as Hvalid.
    { apply list_elem_of_filter. split; [simpl; lia | done]. }
    rewrite Hnone in Hvalid. by apply elem_of_nil in Hvalid.
  - exists st'. split; [done|].
    apply folder_iteration_inr in Hit
      as (parent & depth & name & g2 & Hdraw & [(m & _ & ->) | (e & Htry & ->)]);
      [by auto|].
    split; [done | right]. split; [done|].
    apply folder_draw_inr in Hdraw as (Hparent & _ & base & _ & ->).
    destruct (try_makedirs_registered c E st parent depth base Hinv Hparent)
      as [_ Hcall].
    destruct (decide (attempts st < N)%nat) as [? | Hge]; [done | exfalso].
    rewrite Hcall, refusals_end in Htry by lia. done.
Qed.

Lemma file_iteration_step st :
  tree_inv c st →
  ∃ st', file_iteration c E st = inr st' ∧
         attempts st' = S (attempts st) ∧
         (created_files st' = created_files st + 1 ∨
          (created_files st' = created_files st ∧ (attempts st < N)%nat)).
Proof.
  intros Hinv.
  destruct (file_iteration c E st) as [e|st'] eqn:Hit.
  - apply file_iteration_inl, file_draw_inl in Hit as [_ [Hnone | ?]]; [|done].
    pose proof (tree_root _ _ _ _ _ _ Hinv) as Hroot.
    rewrite Hnone in Hroot. by apply elem_of_nil in Hroot.
  - exists st'. split; [done|].
    apply file_iteration_inr in Hit
      as (target & name & g2 & Hdraw & [(m & _ & ->) | (e & Htry & ->)]);
      [by auto|].
    split; [done | right]. split; [done|].
    apply file_draw_inr in Hdraw as ([depth Htarget] & base & _ & ->).
    destruct (try_open_registered c E st target depth base Hinv Htarget)
      as [_ Hcall].
    destruct (decide (attempts st < N)%nat) as [? | Hge]; [done | exfalso].
    rewrite Hcall, refusals_end in Htry by lia. done.
Qed.

(** Each loop ends within as many iterations as it has entries to create and
    refusals to meet. *)
Lemma folder_loop_settles nfolders fuel st :
  2 ≤ MAX_DEPTH c → tree_inv c st →
  nfolders - created_folders st + Z.of_nat (N - attempts st) ≤ Z.of_nat fuel →
  ∃ st', folder_loop c E nfolders fuel st = Completed st'.
Proof.
  intros Hmax. revert st. induction fuel as [|fuel IH]; intros st Hinv Hfuel;
    simpl; case_bool_decide; eauto; [lia|].
  destruct (folder_iteration_step st Hmax Hinv) as (st' & Hit & Hatt & Hcount).
  rewrite Hit. apply IH; [by eapply folder_iteration_tree|].
  rewrite Hatt. destruct Hcount as [-> | [-> ?]]; lia.
Qed.

Lemma file_loop_settles nfiles fuel st :
  tree_inv c st →
  nfiles - created_files st + Z.of_nat (N - attempts st) ≤ Z.of_nat fuel →
  ∃ st', file_loop c E nfiles fuel st = Completed st'.
Proof.
  revert st. induction fuel as [|fuel IH]; intros st Hinv Hfuel;
    simpl; case_bool_decide; eauto; [lia|].
  destruct (file_iteration_step st Hinv) as (st' & Hit & Hatt & Hcount).
  rewrite Hit. apply IH; [by eapply file_iteration_tree|].
  rewrite Hatt. destruct Hcount as [-> | [-> ?]]; lia.
Qed.

(** A run that meets refusals among its first [N] creation calls only
    completes, given [N] more iterations than the longer loop has entries to
    create. *)
Lemma generate_settles m m1 nfolders fuel :
  2 ≤ MAX_DEPTH c → well_formed m →
  reset_root c E m = inr m1 → num_folders c = inr nfolders →
  nfolders + Z.of_nat N ≤ Z.of_nat fuel →
  TOTAL_ITEMS c - nfolders + Z.of_nat N ≤ Z.of_nat fuel →
  ∃ st, generate c E m fuel = Completed st.
Proof.
  intros Hmax Hwf Hreset Hnum Hfuel1 Hfuel2.
  rewrite (generate_loops c E _ _ _ _ Hreset Hnum). unfold both_loops.
  assert (tree_inv c (initial c m1)) as Hinit.
  { destruct (reset_root_empty c E m m1 Hwf Hreset). by apply tree_inv_initial. }
  destruct (folder_loop_settles nfolders fuel (initial c m1) Hmax Hinit)
    as [st1 Hst1]; [simpl; lia|].
  pose proof (folder_loop_invariant c E (tree_inv c) nfolders fuel (initial c m1))
    as Hinv1.
  pose proof (folder_loop_counters c E nfolders fuel (initial c m1)) as Hcnt1.
  rewrite Hst1 in Hinv1, Hcnt1 |- *. simpl in Hinv1, Hcnt1.
  destruct Hcnt1 as [_ Hfiles1]; [lia|].
  destruct (file_loop_settles (TOTAL_ITEMS c - nfolders) fuel st1) as [st2 Hst2];
    [|lia|rewrite Hst2; simpl; eauto].
  apply Hinv1; [|done]. intros s s' ? _. by apply folder_iteration_tree.
Qed.
End Settled.

(** ** Every creation is at a fresh path *)

Section Fresh.
Context {G : Type} `{!RandomSource G}.
Variable c : config.
Variable E : faults.

Implicit Types (st : @state G) (m : fs).

Lemma folder_iteration_afresh st st' :
  folder_iteration c E st = inr st' → creates_afresh st st' Dir.
Proof.
  intros Hit. apply folder_iteration_inr in Hit
    as (parent & depth & name & g2 & Hdraw & [(m & Htry & ->) | (e & _ & ->)]);
    [right | by left].
  apply folder_draw_inr in Hdraw as (_ & _ & base & _ & ->).
  apply guarded_inr in Htry as [_ Hmk].
  exists (join parent (get_unique_name (files st) parent base)). simpl.
  split_and!; [done | | | by eapply makedirs_subseteq].
  - apply path_exists_false, get_unique_name_fresh.
  - apply makedirs_spec in Hmk as [Hdir _]. by rewrite node_at_join in Hdir.
Qed.

Lemma file_iteration_afresh st st' :
  file_iteration c E st = inr st' → creates_afresh st st' (File "").
Proof.
  intros Hit. apply file_iteration_inr in Hit
    as (target & name & g2 & Hdraw & [(m & Htry & ->) | (e & _ & ->)]);
    [right | by left].
  apply file_draw_inr in Hdraw as (_ & base & _ & ->).
  apply guarded_inr in Htry as [_ Hopen].
  pose proof (get_unique_name_fresh (files st) target base) as Hfree.
  apply open_w_write_inr_fresh in Hopen as [-> _]; [|done].
  exists (join target (get_unique_name (files st) target base)). simpl.
  split_and!; [done | by apply path_exists_false | by rewrite lookup_insert_eq |].
  apply insert_subseteq. by rewrite <- node_at_join.
Qed.

Lemma creates_afresh_subseteq st st' (n : node) :
  creates_afresh st st' n → files st ⊆ files st'.
Proof. by intros [[_ ->] | (p & _ & _ & _ & ?)]. Qed.

(** A run that completed went through the reset and the computation of
    [num_folders]. *)
Lemma generate_completed m fuel st :
  generate c E m fuel = Completed st →
  ∃ m1 nfolders, reset_root c E m = inr m1 ∧ num_folders c = inr nfolders.
Proof.
  intros Hrun. destruct (reset_root c E m) as [e|m1] eqn:Hreset.
  { destruct (generate_reset_failed c E m e fuel Hreset) as [m' ?]. congruence. }
  destruct (num_folders c) as [e|nfolders] eqn:Hnum; [|eauto].
  unfold reset_root in Hreset. apply bind_inr in Hreset as (m0 & Hrm & Hmk).
  unfold generate in Hrun. by rewrite Hrm, Hmk, Hnum in Hrun.
Qed.

(** With an empty pool the draws of both loops raise, and what the draws
    raise the iteration raises. *)
Lemma folder_draw_empty_pool st :
  NAMES_LIST c = [] → folder_draw c st = inl empty_sequence.
Proof.
  intros Hpool. destruct (folder_draw c st) as [e|[[[p dp] n] g]] eqn:Hdraw.
  - by apply folder_draw_inl in Hdraw as [-> _].
  - apply folder_draw_inr in Hdraw as (_ & _ & base & Hbase & _).
    rewrite Hpool in Hbase. by apply elem_of_nil in Hbase.
Qed.

Lemma file_draw_empty_pool st :
  NAMES_LIST c = [] → file_draw c st = inl empty_sequence.
Proof.
  intros Hpool. destruct (file_draw c st) as [e|[[p n] g]] eqn:Hdraw.
  - by apply file_draw_inl in Hdraw as [-> _].
  - apply file_draw_inr in Hdraw as (_ & base & Hbase & _).
    rewrite Hpool in Hbase. by apply elem_of_nil in Hbase.
Qed.

Lemma folder_iteration_raised st e :
  folder_draw c st = inl e → folder_iteration c E st = inl e.
Proof. unfold folder_iteration. by intros ->. Qed.

Lemma file_iteration_raised st e :
  file_draw c st = inl e → file_iteration c E st = inl e.
Proof. unfold file_iteration. by intros ->. Qed.

(** What a completed run leaves: both invariants, and full counters. *)
Lemma generate_completed_inv m fuel st nfolders :
  well_formed m →
  generate c E m fuel = Completed st → num_folders c = inr nfolders →
  tree_inv c st ∧ depth_inv c st ∧
  created_folders st = Z.max 0 nfolders ∧
  created_files st = Z.max 0 (TOTAL_ITEMS c - nfolders).
Proof.
  intros Hwf Hrun Hnum.
  destruct (generate_completed m fuel st Hrun) as (m1 & nf & Hreset & _).
  pose proof (generate_tree_inv c E m m1 nfolders fuel Hwf Hreset Hnum) as Hinv.
  pose proof (generate_depth_inv c E m m1 nfolders fuel Hreset Hnum) as Hdepth.
  rewrite Hrun in Hinv, Hdepth.
  destruct (generate_completed_counters c E m fuel st nfolders Hrun Hnum).
  done.
Qed.





Lemma children_nodup (j : list (path * node)) (d : path) :
  NoDup j.*1 →
  (∀ p n, (p, n) ∈ j → p = join (dirname p) (List.last p "")) →
  NoDup (children j d).
Proof.
  unfold children. induction j as [|[p n] j IH]; intros Hnd Hjoin; [constructor|].
  apply NoDup_cons in Hnd as [Hp Hnd].
  assert (NoDup ((λ e, List.last e.1 "") <$> filter (λ e, dirname e.1 = d) j))
    as IH'.
  { apply IH; [done|]. intros q y Hq. apply (Hjoin q y). by right. }
  rewrite filter_cons. case_decide as Hd; [|done]. simpl in *.
  apply NoDup_cons. split; [|done].
  intros Hin. apply list_elem_of_fmap in Hin as ([q y] & Hlast & Hq).
  apply list_elem_of_filter in Hq as [Hdq Hq]. simpl in *.
  apply Hp. apply list_elem_of_fmap. exists (q, y). split; [|done]. simpl.
  rewrite (Hjoin p n) by left. rewrite (Hjoin q y) by (by right).
  by rewrite Hd, Hdq, Hlast.
Qed.
End Fresh.

(** * The claims *)

(** ** Unique name resolution *)

(** C4. Unique Name Resolution: the loop of [get_unique_name] ends under every
    bound past the size of the filesystem, with one result; the result is the
    base name when no entry of the directory has it, and else the first
    ["base (k)"], [k] counting up from 1, that no entry has; and it is the same
    on any two filesystems that hold the same entries in the directory. *)
Theorem get_unique_name_spec (m : fs) (directory : path) (base_name : string) :
  let r := get_unique_name m directory base_name in
  (∀ fuel, (S (S (size m)) ≤ fuel)%nat →
     get_unique_name_loop fuel m directory base_name base_name 1 = Some r) ∧
  (path_exists m (join directory base_name) = false → r = base_name) ∧
  (path_exists m (join directory base_name) = true →
     ∃ k, (1 ≤ k)%nat ∧ r = numbered base_name k ∧
          path_exists m (join directory r) = false ∧
          ∀ j, (1 ≤ j < k)%nat →
               path_exists m (join directory (numbered base_name j)) = true) ∧
  (∀ m' : fs,
     (∀ name, path_exists m' (join directory name)
              = path_exists m (join directory name)) →
     get_unique_name m' directory base_name = r).
Proof.
  cbv zeta. pose proof (get_unique_name_resolves m directory base_name) as Hres.
  split_and!.
  - intros fuel Hfuel. destruct fuel as [|fuel]; [lia|].
    destruct (get_unique_name_loop_total m directory base_name fuel) as [r Hr];
      [lia|].
    rewrite Hr. f_equal.
    apply (resolves_functional m directory base_name); [|done].
    by eapply get_unique_name_loop_resolves.
  - intros Hfree. destruct Hres as [[_ ?] | [Htaken _]]; [done|].
    unfold taken in Htaken. congruence.
  - intros Htaken. destruct Hres as [[Hfree _] | [_ Hres]]; [|done].
    unfold taken in Hfree. congruence.
  - intros m' Hsame. by apply get_unique_name_ext.
Qed.

(** ** Counts *)

(** [int()] of a double that is not negative is the floor of its value,
    [m * 2^e]. *)
Lemma to_int_floor (mant : positive) (e : Z) :
  PyFloat.to_int (S754_finite false mant e) =
    inr (if bool_decide (0 ≤ e) then Zpos mant * 2 ^ e else Zpos mant / 2 ^ (- e)).
Proof.
  unfold PyFloat.to_int, ret. f_equal.
  destruct e as [|k|k]; case_bool_decide; try lia.
  - by rewrite Z.shiftl_mul_pow2 by lia.
  - by rewrite Z.shiftr_div_pow2 by lia.
Qed.

(** With the constants as shipped, 4000 folders and 6000 files are asked
    for. *)
Example num_folders_shipped (wd : path) (names : list string) :
  num_folders (shipped wd names) = inr 4000.
Proof. reflexivity. Qed.

(** The binary64 product is not always the exact one: three times the double
    nearest to 1/3 rounds to 1. *)
Example num_folders_rounds :
  PyFloat.int_mul_float 3 (PyFloat.literal 1 3) = inr 1 ∧
  PyFloat.int_mul_float 100 (PyFloat.literal 29 100) = inr 28.
Proof. split; reflexivity. Qed.

(** Nor is it at most [TOTAL_ITEMS] for every ratio from 0 to 1: past
    [2^53] the conversion of [TOTAL_ITEMS] to a double may round up. *)
Example num_folders_past_total :
  PyFloat.int_mul_float (2 ^ 53 + 3) (PyFloat.literal 1 1) = inr (2 ^ 53 + 4).
Proof. reflexivity. Qed.

(** A run of three items, replayed: one folder, and two files of which the
    second had its name taken. *)
Example tiny_run :
  let st := final (@generate Z lcg (tiny ["u"]) no_faults ∅ 3) in
  folder_list st = [(["u"; "test_data"], 0); (["u"; "test_data"; "b"], 1)] ∧
  journal st = [(["u"; "test_data"; "b"], Dir);
                (["u"; "test_data"; "b"; "b"], File "");
                (["u"; "test_data"; "b (1)"], File "")] ∧
  created_folders st = 1 ∧ created_files st = 2.
Proof. repeat split; reflexivity. Qed.

(** The same run when every third creation call is refused: the refusals are
    printed, then the summary, and the tree has the same number of
    entries. *)
Example tiny_run_refused :
  let st := final (@generate Z lcg (tiny ["u"]) flaky ∅ 5) in
  stdout st = ["Failed to create folder: [Errno 13] Permission denied";
               "Failed to create file: [Errno 13] Permission denied";
               "Successfully created 1 folders and 2 files!"] ∧
  created_folders st = 1 ∧ created_files st = 2.
Proof. repeat split; reflexivity. Qed.

Section CountAndDepth.
Context {G : Type} `{!RandomSource G}.
Variable c : config.
Variable E : faults.

(** C2, as amended. Count invariant: when a run completes, the number of
    folders under the root, the root excluded, is [num_folders], the number
    that [int(TOTAL_ITEMS * FOLDER_RATIO)] gives in binary64 arithmetic,
    provided that this number is from 0 to [TOTAL_ITEMS]; the number of files
    is [TOTAL_ITEMS] minus that; the two add up to [TOTAL_ITEMS]; and the two
    counters of the script hold these numbers. *)
Theorem count_invariant (m : fs) (fuel : nat) (st : @state G) (nfolders : Z) :
  well_formed m →
  num_folders c = inr nfolders → 0 ≤ nfolders ≤ TOTAL_ITEMS c →
  generate c E m fuel = Completed st →
  Z.of_nat (folders_under (ROOT_FOLDER c) (files st)) = nfolders ∧
  Z.of_nat (files_under (ROOT_FOLDER c) (files st)) = TOTAL_ITEMS c - nfolders ∧
  Z.of_nat (folders_under (ROOT_FOLDER c) (files st))
    + Z.of_nat (files_under (ROOT_FOLDER c) (files st)) = TOTAL_ITEMS c ∧
  created_folders st = nfolders ∧
  created_files st = TOTAL_ITEMS c - nfolders.
Proof.
  intros Hwf Hnum Hrange Hrun.
  destruct (generate_completed_inv c E m fuel st nfolders Hwf Hrun Hnum)
    as (Hinv & _ & Hfolders & Hfiles).
  pose proof (tree_folders_count _ _ _ _ _ _ Hinv) as H1.
  pose proof (tree_files_count _ _ _ _ _ _ Hinv) as H2.
  lia.
Qed.

(** ** Depth *)

(** C3. Depth invariant: with [MAX_DEPTH] at least 1, in the state a run is in
    after any number of iterations, every record of the registry has a depth
    from 0 to [MAX_DEPTH - 1], which is the number of components of its path
    below the root; every record but the root's has its parent in the
    registry, one level up and with a depth below [MAX_DEPTH - 1]; and every
    parent the folder loop draws, in any state, has a depth below
    [MAX_DEPTH - 1]. *)
Theorem depth_invariant (m : fs) (fuel : nat) :
  1 ≤ MAX_DEPTH c →
  let st := final (generate c E m fuel) in
  (∀ p dp, (p, dp) ∈ folder_list st →
     0 ≤ dp < MAX_DEPTH c ∧
     ∃ k, p = ROOT_FOLDER c ++ k ∧ dp = Z.of_nat (length k)) ∧
  (∀ p dp, (p, dp) ∈ folder_list st → p ≠ ROOT_FOLDER c →
     (dirname p, dp - 1) ∈ folder_list st ∧ dp - 1 < MAX_DEPTH c - 1) ∧
  (∀ (s : @state G) parent depth name g2,
     folder_draw c s = inr (parent, depth, name, g2) →
     (parent, depth) ∈ folder_list s ∧ depth < MAX_DEPTH c - 1).
Proof.
  intros Hmax st.
  assert (depth_inv c st) as Hinv.
  { unfold st. destruct (reset_root c E m) as [e|m1] eqn:Hreset.
    - destruct (generate_reset_failed c E m e fuel Hreset) as [m' ->].
      split; by intros p dp ?%elem_of_nil.
    - destruct (num_folders c) as [e|nfolders] eqn:Hnum.
      + unfold reset_root in Hreset.
        apply bind_inr in Hreset as (m0 & Hrm & Hmk).
        unfold generate. rewrite Hrm, Hmk, Hnum.
        split; by intros p dp ?%elem_of_nil.
      + by eapply generate_depth_inv. }
  split_and!.
  - intros p dp Hp. destruct (depth_ok_bound c _ _ _ Hinv Hp) as (? & ? & _).
    split; [auto with lia|]. by apply (depth_true _ _ Hinv).
  - apply (depth_parent _ _ Hinv).
  - intros s parent depth name g2 Hdraw.
    by apply folder_draw_inr in Hdraw as (? & ? & _).
Qed.

End CountAndDepth.

(** C2, as stated, fails: with 3 items and a ratio of 0.3333333333333333 a
    completed run has one folder under the root, while the floor of 3 times
    the ratio is 0, for the ratio as the double it is and as the decimal it
    is written.  The script rounds the product to the double 1.0 before
    [int()] sees it. *)
Lemma count_is_not_the_floor :
  let c := thirds ["u"] in
  ∃ st, @generate Z lcg c no_faults ∅ 3 = Completed st ∧
        folders_under (ROOT_FOLDER c) (files st) = 1%nat ∧
        exact_floor (TOTAL_ITEMS c) (FOLDER_RATIO c) = Some 0 ∧
        3 * 3333333333333333 / 10000000000000000 = 0.
Proof.
  cbv zeta. eexists. split; [reflexivity|].
  split; [|split; reflexivity].
  reflexivity.
Qed.

Lemma count_invariant_witness :
  let st := final (@generate Z lcg (tiny ["u"]) no_faults ∅ 3) in
  Z.of_nat (folders_under ["u"; "test_data"] (files st)) = 1 ∧
  Z.of_nat (files_under ["u"; "test_data"] (files st)) = 3 - 1 ∧
  Z.of_nat (folders_under ["u"; "test_data"] (files st))
    + Z.of_nat (files_under ["u"; "test_data"] (files st)) = 3 ∧
  created_folders st = 1 ∧
  created_files st = 3 - 1.
Proof.
  apply (@count_invariant Z lcg (tiny ["u"]) no_faults ∅ 3).
  - apply map_Forall_empty.
  - reflexivity.
  - simpl; lia.
  - reflexivity.
Defined.

Lemma depth_invariant_witness :
  let st := final (@generate Z lcg (shipped ["home"; "u"] ["a"; "b"]) flaky used_disk 30) in
  (∀ p dp, (p, dp) ∈ folder_list st →
     0 ≤ dp < 4 ∧
     ∃ k, p = ["home"; "u"; "test_data"] ++ k ∧ dp = Z.of_nat (length k)) ∧
  (∀ p dp, (p, dp) ∈ folder_list st → p ≠ ["home"; "u"; "test_data"] →
     (dirname p, dp - 1) ∈ folder_list st ∧ dp - 1 < 4 - 1) ∧
  (∀ (s : @state Z) parent depth name g2,
     @folder_draw Z lcg (shipped ["home"; "u"] ["a"; "b"]) s
       = inr (parent, depth, name, g2) →
     (parent, depth) ∈ folder_list s ∧ depth < 4 - 1).
Proof.
  apply (@depth_invariant Z lcg (shipped ["home"; "u"] ["a"; "b"]) flaky used_disk 30).
  simpl; lia.
Defined.

(** ** Names within a directory *)

Section TreeAndErrors.
Context {G : Type} `{!RandomSource G}.
Variable c : config.
Variable E : faults.

(** C5. Uniqueness invariant: in the tree of a completed run, the journal
    lists exactly the entries strictly below the root, each with what it is,
    no path twice; so in every directory, the root included, no two entries
    created there, folders or files, have the same name. *)
Theorem unique_names (m : fs) (fuel : nat) (st : @state G) :
  well_formed m →
  generate c E m fuel = Completed st →
  (∀ p n, (p, n) ∈ journal st ↔
          files st !! p = Some n ∧ inside (ROOT_FOLDER c) p) ∧
  NoDup (journal st).*1 ∧
  (∀ d, NoDup (children (journal st) d)).
Proof.
  intros Hwf Hrun.
  destruct (generate_completed c E m fuel st Hrun) as (m1 & nfolders & Hreset & Hnum).
  pose proof (generate_tree_inv c E m m1 nfolders fuel Hwf Hreset Hnum) as Hinv.
  rewrite Hrun in Hinv. simpl in Hinv.
  destruct Hinv as [_ _ Hnd Hj Hpar _ _ _ _].
  split_and!; [done | done |].
  intros d. apply children_nodup; [done|].
  intros p n Hp. by destruct (Hpar p n Hp).
Qed.

(** C10. No overwrite: in any state, an iteration of either loop that creates
    an entry creates it at a path where nothing was, a folder in the folder
    loop and an empty file in the file loop, and leaves every other entry as
    it is; so a run only adds to what the reset left. *)
Theorem no_overwrite :
  (∀ st st' : @state G,
     folder_iteration c E st = inr st' → creates_afresh st st' Dir) ∧
  (∀ st st' : @state G,
     file_iteration c E st = inr st' → creates_afresh st st' (File "")) ∧
  (∀ (m m1 : fs) (fuel : nat),
     reset_root c E m = inr m1 → m1 ⊆ files (final (generate c E m fuel))).
Proof.
  split_and!.
  - apply folder_iteration_afresh.
  - apply file_iteration_afresh.
  - intros m m1 fuel Hreset.
    destruct (num_folders c) as [e|nfolders] eqn:Hnum.
    + unfold reset_root in Hreset. apply bind_inr in Hreset as (m0 & Hrm & Hmk).
      unfold generate. by rewrite Hrm, Hmk, Hnum.
    + apply (generate_invariant c E (λ s, m1 ⊆ files s) m m1 nfolders fuel);
        [done | done | | | by intros s a b Hs | done].
      * intros s s' Hs Hit. etrans; [done|].
        by eapply creates_afresh_subseteq, folder_iteration_afresh.
      * intros s s' Hs Hit. etrans; [done|].
        by eapply creates_afresh_subseteq, file_iteration_afresh.
Qed.

(** ** Errors *)


(** C7, as amended. Empty pool: with an empty name pool and at least one
    item to create, the run does not loop: at the first iteration at the
    latest an exception escapes, nothing having been created; once the reset
    and the computation of [num_folders] went through it is the [IndexError]
    of [random.choice], raised in the state the reset left. *)
Theorem empty_pool_fails_fast (m : fs) (fuel : nat) :
  NAMES_LIST c = [] → 0 < TOTAL_ITEMS c →
  ∃ e (st : @state G),
    generate c E m (S fuel) = Aborted e st ∧
    created_folders st = 0 ∧ created_files st = 0 ∧ journal st = [] ∧
    ∀ m1 nfolders,
      reset_root c E m = inr m1 → num_folders c = inr nfolders →
      e = empty_sequence ∧ st = initial c m1.
Proof.
  intros Hpool Htotal.
  destruct (reset_root c E m) as [e|m1] eqn:Hreset.
  { destruct (generate_reset_failed c E m e (S fuel) Hreset) as [m' ->].
    exists e, (unbound c m'). by split_and!. }
  destruct (num_folders c) as [e|nfolders] eqn:Hnum.
  { unfold reset_root in Hreset. apply bind_inr in Hreset as (m0 & Hrm & Hmk).
    unfold generate. rewrite Hrm, Hmk, Hnum.
    exists e, (unbound c m1). by split_and!. }
  exists empty_sequence, (initial c m1).
  split_and!; try done; [|by intros ? ? [= <-] [= <-]].
  rewrite (generate_loops c E _ _ _ _ Hreset Hnum). unfold both_loops.
  simpl. case_bool_decide as Hfolders; simpl in Hfolders.
  - by rewrite (folder_iteration_raised c E _ empty_sequence)
      by (by apply folder_draw_empty_pool).
  - rewrite bool_decide_eq_true_2 by (simpl; lia).
    by rewrite (file_iteration_raised c E _ empty_sequence)
      by (by apply file_draw_empty_pool).
Qed.

(** C8, as amended. With [MAX_DEPTH] below 2 and at least one folder to
    create, no record passes the filter of [valid_folders], not even the
    root's, and the run does not spin: the first draw of a parent raises the
    [IndexError] of [random.choice], which escapes the loop and ends the run
    before any folder is created. *)
Theorem shallow_depth_aborts (m m1 : fs) (nfolders : Z) (fuel : nat) :
  MAX_DEPTH c < 2 → num_folders c = inr nfolders → 0 < nfolders →
  reset_root c E m = inr m1 →
  valid_folders c (folder_list (initial (G:=G) c m1)) = [] ∧
  generate c E m (S fuel) = Aborted empty_sequence (initial c m1) ∧
  ¬ stalls c E m.
Proof.
  intros Hmax Hnum Hpos Hreset.
  assert (valid_folders c (folder_list (initial (G:=G) c m1)) = []) as Hvalid.
  { unfold valid_folders. simpl. rewrite filter_cons, decide_False by (simpl; lia).
    done. }
  assert (generate c E m (S fuel) = Aborted empty_sequence (initial c m1)) as Hrun.
  { rewrite (generate_loops c E _ _ _ _ Hreset Hnum). unfold both_loops. simpl.
    rewrite bool_decide_eq_true_2 by done.
    unfold folder_iteration, folder_draw. by rewrite Hvalid. }
  split_and!; [done | done |].
  intros Hstall. destruct (Hstall 1%nat) as [st Hst].
  assert (generate c E m 1 = Aborted empty_sequence (initial c m1)) as Hrun1.
  { rewrite (generate_loops c E _ _ _ _ Hreset Hnum). unfold both_loops. simpl.
    rewrite bool_decide_eq_true_2 by done.
    unfold folder_iteration, folder_draw. by rewrite Hvalid. }
  congruence.
Qed.

(** The tree of the scenario is what every completed run leaves, whatever
    was refused on the way. *)
Lemma scenario_completed (wd : path) (m : fs) (fuel : nat) (st : @state G) :
  well_formed m →
  generate (scenario wd) E m fuel = Completed st →
  scenario_tree (ROOT_FOLDER (scenario wd)) st.
Proof.
  intros Hwf Hrun. set (sc := scenario wd) in *.
  assert (num_folders sc = inr 4) as Hnum by reflexivity.
  destruct (generate_completed_inv sc E m fuel st 4 Hwf Hrun Hnum)
    as (Hinv & Hdepth & H1 & H2).
  rewrite (tree_folders_count _ _ _ _ _ _ Hinv) in H1.
  rewrite (tree_files_count _ _ _ _ _ _ Hinv) in H2.
  assert (∀ p dp, (p, dp) ∈ folder_list st → p ≠ ROOT_FOLDER sc →
            dp = 1 ∧ dirname p = ROOT_FOLDER sc) as Hchild.
  { intros p dp Hp Hne.
    destruct (depth_ok_bound sc _ _ _ Hdepth Hp) as (Hge & Hlt & Hroot).
    assert (dp = 1) as -> by (simpl in Hlt; assert (dp ≠ 0) by tauto; lia).
    split; [done|].
    destruct (depth_true _ _ Hdepth _ _ Hp) as (k & -> & Hk).
    destruct k as [|x [|y k]]; simpl in Hk; try lia.
    apply (dirname_join (ROOT_FOLDER sc) x). }
  unfold scenario_tree. split_and!; [lia | simpl in H2; lia | |].
  - intros p Hp Hin.
    assert ((p, Dir) ∈ journal st) as Hj by (by apply (tree_journal _ _ _ _ _ _ Hinv)).
    destruct (tree_dirs _ _ _ _ _ _ Hinv _ Hj) as [dp Hreg].
    destruct (Hchild p dp Hreg) as [-> ?]; [by destruct Hin | done].
  - intros p x Hp Hin.
    assert ((p, File x) ∈ journal st) as Hj by (by apply (tree_journal _ _ _ _ _ _ Hinv)).
    split; [by eapply (tree_files _ _ _ _ _ _ Hinv)|].
    destruct (tree_parent _ _ _ _ _ _ Hinv _ _ Hj) as [_ [dp Hreg]].
    destruct (decide (dirname p = ROOT_FOLDER sc)) as [? | Hne]; [by left | right].
    destruct (Hchild _ dp Hreg Hne) as [_ ?]. split; [done|].
    destruct (tree_registry _ _ _ _ _ _ Hinv _ _ Hreg) as [Hdir _].
    rewrite node_at_lookup in Hdir; [done|]. intros Hnil. apply Hne.
    by rewrite Hnil in *.
Qed.


(** C9. Scenario: with 10 items, a folder ratio of 0.4, a maximal depth of 2
    and the pool of two names, once the root reset went through, and if the
    environment refuses creation calls among the first [N] only (none, for
    [N = 0]), the run completes within [N + 6] iterations of each loop, and
    it leaves 4 folders and 6 files under the root; every folder is a direct
    child of the root, recorded at depth 1, with no folder between it and the
    root; and every file is empty and sits in the root or in one of these
    folders.  And this is the tree of every run that completes, whatever was
    refused. *)
Theorem scenario_shape (wd : path) (m : fs) :
  well_formed m →
  (∀ (m1 : fs) (N fuel : nat),
     reset_root (scenario wd) E m = inr m1 →
     (∀ k, (N ≤ k)%nat → item_fault E k = None) →
     (N + 6 ≤ fuel)%nat →
     ∃ st : @state G,
       generate (scenario wd) E m fuel = Completed st ∧
       scenario_tree (ROOT_FOLDER (scenario wd)) st) ∧
  (∀ (fuel : nat) (st : @state G),
     generate (scenario wd) E m fuel = Completed st →
     scenario_tree (ROOT_FOLDER (scenario wd)) st).
Proof.
  intros Hwf. split; [|intros fuel st; by apply scenario_completed].
  intros m1 N fuel Hreset Hend Hfuel.
  destruct (generate_settles (scenario wd) E N Hend ltac:(done) m m1 4 fuel)
    as [st Hst]; [simpl; lia | done | done | reflexivity | lia | simpl; lia |].
  exists st. split; [done|]. by eapply scenario_completed.
Qed.

End TreeAndErrors.

Lemma unique_names_witness :
  let st := final (@generate Z lcg (tiny ["u"]) no_faults ∅ 3) in
  (∀ p n, (p, n) ∈ journal st ↔
          files st !! p = Some n ∧ inside ["u"; "test_data"] p) ∧
  NoDup (journal st).*1 ∧
  (∀ d, NoDup (children (journal st) d)).
Proof.
  apply (@unique_names Z lcg (tiny ["u"]) no_faults ∅ 3).
  - apply map_Forall_empty.
  - reflexivity.
Defined.

Lemma no_overwrite_witness :
  let st := @initial Z lcg (scenario ["home"; "u"]) fresh_disk in
  creates_afresh st
    (final (@folder_loop Z lcg (scenario ["home"; "u"]) no_faults 1 1 st)) Dir.
Proof.
  destruct (@no_overwrite Z lcg (scenario ["home"; "u"]) no_faults) as [Hfolder _].
  apply Hfolder. reflexivity.
Defined.



(** C7, as stated, fails: nothing checks the pool.  With an empty pool the
    run ends on the [IndexError] of [random.choice], the one that a maximal
    depth of 1 gives with names in the pool, and only once the reset has
    removed the tree that was there; and with no item to create an empty
    pool raises nothing. *)
Lemma empty_pool_is_not_checked :
  let c := no_names ["home"; "u"] in
  let o := @generate Z lcg c no_faults used_disk 1 in
  o = Aborted (IndexError "Cannot choose from an empty sequence")
        (@initial Z lcg c fresh_disk) ∧
  used_disk !! ["home"; "u"; "test_data"; "old"; "b"] = Some (File "data") ∧
  files (final o) !! ["home"; "u"; "test_data"; "old"; "b"] = None ∧
  (∃ st, @generate Z lcg (shallow ["home"; "u"]) no_faults used_disk 1
           = Aborted (IndexError "Cannot choose from an empty sequence") st) ∧
  (∃ st, @generate Z lcg (idle ["home"; "u"]) no_faults used_disk 1
           = Completed st).
Proof.
  cbv zeta. split_and!; try reflexivity; eexists; reflexivity.
Qed.

Lemma empty_pool_fails_fast_witness :
  ∃ e (st : @state Z),
    @generate Z lcg (no_names ["home"; "u"]) no_faults used_disk 1 = Aborted e st ∧
    created_folders st = 0 ∧ created_files st = 0 ∧ journal st = [] ∧
    ∀ m1 nfolders,
      reset_root (no_names ["home"; "u"]) no_faults used_disk = inr m1 →
      num_folders (no_names ["home"; "u"]) = inr nfolders →
      e = empty_sequence ∧ st = @initial Z lcg (no_names ["home"; "u"]) m1.
Proof.
  apply (@empty_pool_fails_fast Z lcg (no_names ["home"; "u"]) no_faults used_disk 0).
  - reflexivity.
  - simpl; lia.
Defined.

(** C8, as stated, fails: with a maximal depth of 1 the run of the scenario
    does not stall, it ends at the first iteration on the [IndexError] of
    [random.choice]. *)
Lemma shallow_depth_does_not_stall :
  @generate Z lcg (shallow ["home"; "u"]) no_faults used_disk 1
    = Aborted empty_sequence (@initial Z lcg (shallow ["home"; "u"]) fresh_disk) ∧
  ¬ @stalls Z lcg (shallow ["home"; "u"]) no_faults used_disk.
Proof.
  assert (@generate Z lcg (shallow ["home"; "u"]) no_faults used_disk 1
    = Aborted empty_sequence (@initial Z lcg (shallow ["home"; "u"]) fresh_disk))
    as Hrun by reflexivity.
  split; [done|].
  intros Hstall. destruct (Hstall 1%nat) as [st Hst]. congruence.
Qed.

Lemma shallow_depth_aborts_witness :
  valid_folders (shallow ["home"; "u"])
    (folder_list (@initial Z lcg (shallow ["home"; "u"]) fresh_disk)) = [] ∧
  @generate Z lcg (shallow ["home"; "u"]) no_faults used_disk 3
    = Aborted empty_sequence (@initial Z lcg (shallow ["home"; "u"]) fresh_disk) ∧
  ¬ @stalls Z lcg (shallow ["home"; "u"]) no_faults used_disk.
Proof.
  apply (@shallow_depth_aborts Z lcg (shallow ["home"; "u"]) no_faults
           used_disk fresh_disk 4 2).
  - simpl; lia.
  - reflexivity.
  - lia.
  - reflexivity.
Defined.

Lemma scenario_shape_witness :
  ∃ st, @generate Z lcg (scenario ["home"; "u"]) slow_start used_disk 9
          = Completed st ∧
        scenario_tree ["home"; "u"; "test_data"] st.
Proof.
  assert (well_formed used_disk) as Hwf
    by (apply (bool_decide_unpack (well_formed used_disk)); exact I).
  destruct (@scenario_shape Z lcg slow_start ["home"; "u"] used_disk Hwf)
    as [Hrun _].
  apply (Hrun fresh_disk 3%nat 9%nat).
  - reflexivity.
  - intros k Hk. simpl. by rewrite (proj2 (Nat.ltb_ge k 3)).
  - lia.
Defined.

(** ** Determinism *)

Section Determinism.
Context {G : Type} `{!RandomSource G}.
Variables c1 c2 : config.
Variables E1 E2 : faults.
Hypothesis settings : same_settings c1 c2.
Hypothesis refusals : ∀ k, item_fault E1 k = item_fault E2 k.

Abbreviation R1 := (ROOT_FOLDER c1).
Abbreviation R2 := (ROOT_FOLDER c2).
Implicit Types (s : @state G) (m : fs) (q : path).

Lemma valid_folders_same fl1 fl2 :
  same_registry R1 R2 fl1 fl2 →
  same_registry R1 R2 (valid_folders c1 fl1) (valid_folders c2 fl2).
Proof.
  destruct settings as (_ & Hmax & _).
  unfold same_registry, valid_folders. rewrite <- Hmax.
  induction 1 as [|f1 f2 fl1 fl2 [Hdepth Hpath] _ IH]; [constructor|].
  rewrite !filter_cons. rewrite <- Hdepth.
  case_decide; [constructor; [by split | done] | done].
Qed.

(** Drawing with one generator from two lists of the same length draws at
    the same index. *)
Lemma choice_same {A B : Type} (rel : A → B → Prop) (g : G)
    (l1 : list A) (l2 : list B) :
  Forall2 rel l1 l2 →
  match choice g l1, choice g l2 with
  | inr (x, g1), inr (y, g2) => rel x y ∧ g1 = g2
  | inl e1, inl e2 => e1 = e2
  | _, _ => False
  end.
Proof.
  intros Hrel. pose proof (Forall2_length _ _ _ Hrel) as Hlen.
  destruct l1 as [|a l1], l2 as [|b l2]; try done.
  destruct (choice_cons g (a :: l1)) as (x & Hx & ->); [done|].
  destruct (choice_cons g (b :: l2)) as (y & Hy & ->); [done|].
  rewrite <- Hlen in Hy |- *. split; [|done].
  by eapply Forall2_lookup_lr.
Qed.

Lemma taken_same m1 m2 q (name : string) :
  same_tree R1 R2 m1 m2 →
  taken m1 (R1 ++ q) name = taken m2 (R2 ++ q) name.
Proof.
  intros Hsame. unfold taken, path_exists. rewrite !node_at_join.
  unfold join. by rewrite <- !app_assoc, Hsame.
Qed.

Lemma same_tree_insert m1 m2 q (n : node) :
  same_tree R1 R2 m1 m2 →
  same_tree R1 R2 (<[R1 ++ q := n]> m1) (<[R2 ++ q := n]> m2).
Proof.
  intros Hsame q'. destruct (decide (q = q')) as [-> | Hne].
  - by rewrite !lookup_insert_eq.
  - rewrite !lookup_insert_ne; [done | |]; by intros ?%app_inv_head.
Qed.

Lemma folder_draw_alike s1 s2 :
  alike R1 R2 s1 s2 →
  match folder_draw c1 s1, folder_draw c2 s2 with
  | inr (p1, d1, n1, g1), inr (p2, d2, n2, g2) =>
      d1 = d2 ∧ n1 = n2 ∧ g1 = g2 ∧ ∃ q, p1 = R1 ++ q ∧ p2 = R2 ++ q
  | inl e1, inl e2 => e1 = e2
  | _, _ => False
  end.
Proof.
  intros [Hgen Hfiles _ _ Hreg _ _]. destruct settings as (_ & _ & _ & _ & Hpool).
  unfold folder_draw. rewrite <- Hgen, <- Hpool.
  pose proof (choice_same _ (generator s1) _ _ (valid_folders_same _ _ Hreg)) as Hc.
  destruct (choice (generator s1) (valid_folders c1 (folder_list s1)))
    as [e1|[[p1 d1] g1]],
    (choice (generator s1) (valid_folders c2 (folder_list s2)))
    as [e2|[[p2 d2] g2]]; simpl; try done.
  destruct Hc as [[Hd (q & Hp1 & Hp2)] <-]. simpl in *. subst.
  destruct (choice g1 (NAMES_LIST c1)) as [e|[base g3]]; simpl; [done|].
  split_and!; [done | | done | by exists q].
  apply get_unique_name_ext. intros name. by apply taken_same.
Qed.

Lemma file_draw_alike s1 s2 :
  alike R1 R2 s1 s2 →
  match file_draw c1 s1, file_draw c2 s2 with
  | inr (p1, n1, g1), inr (p2, n2, g2) =>
      n1 = n2 ∧ g1 = g2 ∧ ∃ q, p1 = R1 ++ q ∧ p2 = R2 ++ q
  | inl e1, inl e2 => e1 = e2
  | _, _ => False
  end.
Proof.
  intros [Hgen Hfiles _ _ Hreg _ _]. destruct settings as (_ & _ & _ & _ & Hpool).
  unfold file_draw. rewrite <- Hgen, <- Hpool.
  pose proof (choice_same _ (generator s1) _ _ Hreg) as Hc.
  destruct (choice (generator s1) (folder_list s1)) as [e1|[[p1 d1] g1]],
    (choice (generator s1) (folder_list s2)) as [e2|[[p2 d2] g2]];
    simpl; try done.
  destruct Hc as [[Hd (q & Hp1 & Hp2)] <-]. simpl in *. subst.
  destruct (choice g1 (NAMES_LIST c1)) as [e|[base g3]]; simpl; [done|].
  split_and!; [ | done | by exists q].
  apply get_unique_name_ext. intros name. by apply taken_same.
Qed.

Lemma folder_iteration_alike s1 s2 :
  alike R1 R2 s1 s2 → tree_inv c1 s1 → tree_inv c2 s2 →
  match folder_iteration c1 E1 s1, folder_iteration c2 E2 s2 with
  | inr s1', inr s2' => alike R1 R2 s1' s2'
  | inl e1, inl e2 => e1 = e2
  | _, _ => False
  end.
Proof.
  intros Halike Hinv1 Hinv2. pose proof (folder_draw_alike s1 s2 Halike) as Hdraw.
  unfold folder_iteration.
  destruct (folder_draw c1 s1) as [e1|[[[p1 d1] n1] g1]] eqn:Hd1,
    (folder_draw c2 s2) as [e2|[[[p2 d2] n2] g2]] eqn:Hd2; simpl; try done.
  destruct Hdraw as (<- & <- & <- & q & -> & ->).
  apply folder_draw_inr in Hd1 as (Hp1 & _ & base1 & _ & Hn1).
  apply folder_draw_inr in Hd2 as (Hp2 & _ & base2 & _ & Hn2).
  destruct (try_makedirs_registered c1 E1 s1 _ _ base1 Hinv1 Hp1) as [_ Hcall1].
  destruct (try_makedirs_registered c2 E2 s2 _ _ base2 Hinv2 Hp2) as [_ Hcall2].
  rewrite <- Hn1 in Hcall1. rewrite <- Hn2 in Hcall2. rewrite Hcall1, Hcall2.
  destruct Halike as [Hgen Hfiles Hout Hatt Hreg Hnf Hnfi].
  rewrite <- Hatt, <- refusals.
  destruct (item_fault E1 (attempts s1)) as [msg|]; simpl.
  - split; simpl; first [done | congruence].
  - split; simpl; [done | | done | congruence | | congruence | done].
    + unfold join. rewrite <- !app_assoc. by apply same_tree_insert.
    + apply Forall2_app; [done|]. constructor; [|constructor].
      split; [done|]. exists (q ++ [n1]). simpl. unfold join.
      by rewrite <- !app_assoc.
Qed.

Lemma file_iteration_alike s1 s2 :
  alike R1 R2 s1 s2 → tree_inv c1 s1 → tree_inv c2 s2 →
  match file_iteration c1 E1 s1, file_iteration c2 E2 s2 with
  | inr s1', inr s2' => alike R1 R2 s1' s2'
  | inl e1, inl e2 => e1 = e2
  | _, _ => False
  end.
Proof.
  intros Halike Hinv1 Hinv2. pose proof (file_draw_alike s1 s2 Halike) as Hdraw.
  unfold file_iteration.
  destruct (file_draw c1 s1) as [e1|[[p1 n1] g1]] eqn:Hd1,
    (file_draw c2 s2) as [e2|[[p2 n2] g2]] eqn:Hd2; simpl; try done.
  destruct Hdraw as (<- & <- & q & -> & ->).
  apply file_draw_inr in Hd1 as ([dp1 Hp1] & base1 & _ & Hn1).
  apply file_draw_inr in Hd2 as ([dp2 Hp2] & base2 & _ & Hn2).
  destruct (try_open_registered c1 E1 s1 _ _ base1 Hinv1 Hp1) as [_ Hcall1].
  destruct (try_open_registered c2 E2 s2 _ _ base2 Hinv2 Hp2) as [_ Hcall2].
  rewrite <- Hn1 in Hcall1. rewrite <- Hn2 in Hcall2. rewrite Hcall1, Hcall2.
  destruct Halike as [Hgen Hfiles Hout Hatt Hreg Hnf Hnfi].
  rewrite <- Hatt, <- refusals.
  destruct (item_fault E1 (attempts s1)) as [msg|]; simpl.
  - split; simpl; first [done | congruence].
  - split; simpl; [done | | done | congruence | done | done | congruence].
    unfold join. rewrite <- !app_assoc. by apply same_tree_insert.
Qed.

(** The two runs go through their loops in step. *)
Lemma folder_loop_alike nfolders fuel s1 s2 :
  alike R1 R2 s1 s2 → tree_inv c1 s1 → tree_inv c2 s2 →
  let o1 := folder_loop c1 E1 nfolders fuel s1 in
  let o2 := folder_loop c2 E2 nfolders fuel s2 in
  same_ending o1 o2 ∧ alike R1 R2 (final o1) (final o2) ∧
  tree_inv c1 (final o1) ∧ tree_inv c2 (final o2).
Proof.
  revert s1 s2. induction fuel as [|fuel IH]; intros s1 s2 Halike Hinv1 Hinv2;
    simpl; rewrite <- (alike_folders _ _ _ _ Halike);
    case_bool_decide; try done.
  pose proof (folder_iteration_alike s1 s2 Halike Hinv1 Hinv2) as Hstep.
  destruct (folder_iteration c1 E1 s1) as [e1|s1'] eqn:Hit1,
    (folder_iteration c2 E2 s2) as [e2|s2'] eqn:Hit2; try done.
  apply IH; [done | by eapply folder_iteration_tree..].
Qed.

Lemma file_loop_alike nfiles fuel s1 s2 :
  alike R1 R2 s1 s2 → tree_inv c1 s1 → tree_inv c2 s2 →
  let o1 := file_loop c1 E1 nfiles fuel s1 in
  let o2 := file_loop c2 E2 nfiles fuel s2 in
  same_ending o1 o2 ∧ alike R1 R2 (final o1) (final o2).
Proof.
  revert s1 s2. induction fuel as [|fuel IH]; intros s1 s2 Halike Hinv1 Hinv2;
    simpl; rewrite <- (alike_files_count _ _ _ _ Halike);
    case_bool_decide; try done.
  pose proof (file_iteration_alike s1 s2 Halike Hinv1 Hinv2) as Hstep.
  destruct (file_iteration c1 E1 s1) as [e1|s1'] eqn:Hit1,
    (file_iteration c2 E2 s2) as [e2|s2'] eqn:Hit2; try done.
  apply IH; [done | by eapply file_iteration_tree..].
Qed.

(** After the reset, the two roots are alike: empty directories. *)
Lemma reset_same_tree m1 m2 m1' m2' :
  well_formed m1 → well_formed m2 →
  reset_root c1 E1 m1 = inr m1' → reset_root c2 E2 m2 = inr m2' →
  same_tree R1 R2 m1' m2'.
Proof.
  intros Hwf1 Hwf2 Hreset1 Hreset2.
  destruct (reset_root_empty c1 E1 m1 m1' Hwf1 Hreset1) as [Hroot1 Hempty1].
  destruct (reset_root_empty c2 E2 m2 m2' Hwf2 Hreset2) as [Hroot2 Hempty2].
  intros q. destruct q as [|x q].
  - rewrite !app_nil_r. rewrite node_at_lookup in Hroot1, Hroot2;
      [congruence | apply join_not_nil..].
  - rewrite Hempty1, Hempty2; [done | |]; (split; [by apply prefix_app_r|]);
      intros Heq; apply (f_equal length) in Heq; rewrite length_app in Heq;
      simpl in Heq; lia.
Qed.

(** C1. Determinism: two runs with the same seed, constants and name pool,
    each in its own working directory, on its own filesystem, whose resets go
    through and which meet the same refusals in their loops, end the same way
    and leave, under their roots, the same entries at the same relative paths
    (the same tree shape, with the same names), the same registry and the
    same output. *)
Theorem determinism (m1 m2 m1' m2' : fs) (fuel : nat) :
  well_formed m1 → well_formed m2 →
  reset_root c1 E1 m1 = inr m1' → reset_root c2 E2 m2 = inr m2' →
  let o1 := generate c1 E1 m1 fuel in
  let o2 := generate c2 E2 m2 fuel in
  same_ending o1 o2 ∧
  same_tree (ROOT_FOLDER c1) (ROOT_FOLDER c2) (files (final o1)) (files (final o2)) ∧
  same_registry (ROOT_FOLDER c1) (ROOT_FOLDER c2)
    (folder_list (final o1)) (folder_list (final o2)) ∧
  stdout (final o1) = stdout (final o2).
Proof.
  intros Hwf1 Hwf2 Hreset1 Hreset2. cbv zeta.
  pose proof (reset_same_tree m1 m2 m1' m2' Hwf1 Hwf2 Hreset1 Hreset2) as Hsame.
  destruct settings as (Htotal & Hmax & Hratio & Hseed & Hpool).
  assert (num_folders c2 = num_folders c1) as Hnum.
  { unfold num_folders. by rewrite Htotal, Hratio. }
  destruct (num_folders c1) as [e|nfolders] eqn:Hnum1.
  { unfold reset_root in Hreset1, Hreset2.
    apply bind_inr in Hreset1 as (m01 & Hrm1 & Hmk1).
    apply bind_inr in Hreset2 as (m02 & Hrm2 & Hmk2).
    unfold generate. rewrite Hrm1, Hmk1, Hrm2, Hmk2, Hnum, Hnum1. simpl.
    split_and!; [done | done | constructor | done]. }
  rewrite (generate_loops c1 E1 _ _ _ _ Hreset1 Hnum1).
  rewrite (generate_loops c2 E2 _ _ _ _ Hreset2 Hnum).
  unfold both_loops.
  assert (alike R1 R2 (initial c1 m1') (initial c2 m2')) as Hinit.
  { split; simpl; try done; [by rewrite Hseed|].
    constructor; [|constructor]. split; [done|]. exists []. by rewrite !app_nil_r. }
  assert (tree_inv c1 (initial c1 m1')) as Hinv1.
  { destruct (reset_root_empty c1 E1 m1 m1' Hwf1 Hreset1).
    by apply tree_inv_initial. }
  assert (tree_inv c2 (initial c2 m2')) as Hinv2.
  { destruct (reset_root_empty c2 E2 m2 m2' Hwf2 Hreset2).
    by apply tree_inv_initial. }
  destruct (folder_loop_alike nfolders fuel _ _ Hinit Hinv1 Hinv2)
    as (Hend & Halike & Hinv1' & Hinv2').
  rewrite <- Htotal.
  destruct (folder_loop c1 E1 nfolders fuel (initial c1 m1')) as [s1|e1 s1|s1],
    (folder_loop c2 E2 nfolders fuel (initial c2 m2')) as [s2|e2 s2|s2];
    try done; simpl in *.
  - destruct (file_loop_alike (TOTAL_ITEMS c1 - nfolders) fuel s1 s2
                Halike Hinv1' Hinv2') as [Hend' Halike'].
    destruct (file_loop c1 E1 (TOTAL_ITEMS c1 - nfolders) fuel s1) as [t1|e1 t1|t1],
      (file_loop c2 E2 (TOTAL_ITEMS c1 - nfolders) fuel s2) as [t2|e2 t2|t2];
      try done; simpl in *; (split; [done|]); destruct Halike';
      split_and!; try done.
    by f_equal.
  - split; [done|]. by destruct Halike.
  - split; [done|]. by destruct Halike.
Qed.

End Determinism.

Lemma determinism_witness :
  let o1 := @generate Z lcg (scenario ["home"; "u"]) flaky used_disk 20 in
  let o2 := @generate Z lcg (scenario ["tmp"]) flaky ∅ 20 in
  same_ending o1 o2 ∧
  same_tree ["home"; "u"; "test_data"] ["tmp"; "test_data"]
    (files (final o1)) (files (final o2)) ∧
  same_registry ["home"; "u"; "test_data"] ["tmp"; "test_data"]
    (folder_list (final o1)) (folder_list (final o2)) ∧
  stdout (final o1) = stdout (final o2).
Proof.
  apply (@determinism Z lcg (scenario ["home"; "u"]) (scenario ["tmp"]) flaky flaky
           ltac:(by repeat split) ltac:(done)
           used_disk ∅ fresh_disk (<[ ["tmp"; "test_data"] := Dir ]> (<[ ["tmp"] := Dir ]> ∅))
           20).
  - apply (bool_decide_unpack (well_formed used_disk)). exact I.
  - apply map_Forall_empty.
  - reflexivity.
  - reflexivity.
Defined.

(** * Further properties of the script *)

(** ** More on the filesystem calls *)

Lemma dirname_below (p : path) : below (dirname p) p.
Proof.
  destruct (decide (p = [])) as [-> | Hne]; [done|].
  unfold dirname. rewrite (app_removelast_last "" Hne) at 2.
  by apply prefix_app_r.
Qed.

Lemma rmtree_well_formed (m m' : fs) (p : path) :
  well_formed m → rmtree m p = inr m' → well_formed m'.
Proof.
  intros Hwf Hrm q x Hq. simpl.
  rewrite (rmtree_lookup _ _ _ q Hrm) in Hq. case_decide as Hb; [done|].
  specialize (Hwf q x Hq). simpl in Hwf.
  destruct (dirname q) as [|a d] eqn:Hd; [done|]. simpl in *.
  rewrite (rmtree_lookup _ _ _ (a :: d) Hrm). rewrite decide_False; [done|].
  intros Hb'. apply Hb. unfold below in *. etrans; [done|].
  rewrite <- Hd. apply dirname_below.
Qed.

Lemma makedirs_rev_well_formed (rname : list string) (m m' : fs) :
  well_formed m → makedirs_rev rname m = inr m' → well_formed m'.
Proof.
  revert m m'. induction rname as [|tail rhead IH]; intros m m' Hwf; simpl.
  - by intros [= <-].
  - intros Hrun. apply bind_inr in Hrun as (m1 & Hhead & Hleaf).
    assert (well_formed m1) as Hwf1.
    { destruct (path_exists m (rev rhead)); [by injection Hhead as <- | eauto]. }
    destruct (mkdir m1 (join (rev rhead) tail)) as [e|m2] eqn:Hmk.
    + destruct (isdir m1 (join (rev rhead) tail)); [by injection Hleaf as <- | done].
    + injection Hleaf as <-. apply mkdir_inr in Hmk as (Hnone & Hpar & ->).
      rewrite dirname_join in Hpar. rewrite node_at_join in Hnone.
      by apply well_formed_insert.
Qed.

Lemma makedirs_well_formed (m m' : fs) (p : path) :
  well_formed m → makedirs m p = inr m' → well_formed m'.
Proof. unfold makedirs. apply makedirs_rev_well_formed. Qed.

Lemma open_w_write_well_formed (m m' : fs) (d : path) (n data : string) :
  well_formed m → node_at m (join d n) = None →
  open_w_write m (join d n) data = inr m' → well_formed m'.
Proof.
  intros Hwf Hfree Hopen.
  apply open_w_write_inr_fresh in Hopen as [-> Hpar]; [|done].
  rewrite dirname_join in Hpar. rewrite node_at_join in Hfree.
  by apply well_formed_insert.
Qed.

(** ** The run and the rest of the filesystem *)

Section Confinement.
Context {G : Type} `{!RandomSource G}.
Variable c : config.
Variable E : faults.

Implicit Types (st : @state G) (m : fs) (q : path).

Lemma remove_root_well_formed m m0 :
  well_formed m → remove_root c E m = inr m0 → well_formed m0.
Proof.
  unfold remove_root. intros Hwf Hrm.
  destruct (path_exists m (ROOT_FOLDER c)); [|by injection Hrm as <-].
  apply guarded_inr in Hrm as [_ Hrm]. by eapply rmtree_well_formed.
Qed.

Lemma make_root_well_formed m0 m1 :
  well_formed m0 → make_root c E m0 = inr m1 → well_formed m1.
Proof.
  unfold make_root. intros Hwf Hmk.
  apply guarded_inr in Hmk as [_ Hmk]. by eapply makedirs_well_formed.
Qed.

Lemma remove_root_outside m m0 q :
  remove_root c E m = inr m0 → ¬ below (ROOT_FOLDER c) q → m0 !! q = m !! q.
Proof.
  unfold remove_root. intros Hrm Hq.
  destruct (path_exists m (ROOT_FOLDER c)); [|by injection Hrm as <-].
  apply guarded_inr in Hrm as [_ Hrm].
  by rewrite (rmtree_lookup _ _ _ q Hrm), decide_False.
Qed.

Lemma folder_iteration_well_formed st st' :
  well_formed (files st) → folder_iteration c E st = inr st' →
  well_formed (files st').
Proof.
  intros Hwf Hit. apply folder_iteration_inr in Hit
    as (parent & depth & name & g2 & _ & [(m & Htry & ->) | (e & _ & ->)]);
    [|done].
  apply guarded_inr in Htry as [_ Hmk]. by eapply makedirs_well_formed.
Qed.

Lemma file_iteration_well_formed st st' :
  well_formed (files st) → file_iteration c E st = inr st' →
  well_formed (files st').
Proof.
  intros Hwf Hit. apply file_iteration_inr in Hit
    as (target & name & g2 & Hdraw & [(m & Htry & ->) | (e & _ & ->)]);
    [|done].
  apply file_draw_inr in Hdraw as (_ & base & _ & ->).
  apply guarded_inr in Htry as [_ Hopen].
  eapply open_w_write_well_formed; [done | apply get_unique_name_fresh | done].
Qed.

(** What either loop keeps, a run keeps from the reset on, however the run
    ends. *)
Lemma generate_from_reset (P : @state G → Prop) m fuel :
  (∀ m0, remove_root c E m = inr m0 → P (unbound c m0)) →
  (∀ m1, reset_root c E m = inr m1 → P (unbound c m1) ∧ P (initial c m1)) →
  P (unbound c m) →
  (∀ s s', P s → folder_iteration c E s = inr s' → P s') →
  (∀ s s', P s → file_iteration c E s = inr s' → P s') →
  (∀ s a b, P s → P (print_summary a b s)) →
  P (final (generate c E m fuel)).
Proof.
  intros Hrm Hreset Hstart Hfolder Hfile Hprint. unfold generate.
  destruct (remove_root c E m) as [e|m0] eqn:Hrm0; [done|].
  destruct (make_root c E m0) as [e|m1] eqn:Hmk; [by apply Hrm|].
  assert (reset_root c E m = inr m1) as Hreset1.
  { unfold reset_root. by rewrite Hrm0. }
  destruct (Hreset m1 Hreset1) as [Hunbound Hinit].
  destruct (num_folders c) as [e|nfolders]; [done|].
  pose proof (folder_loop_invariant c E P nfolders fuel (initial c m1)) as H1.
  destruct (folder_loop c E nfolders fuel (initial c m1)) as [st|e st|st];
    simpl in H1; [|by eauto..].
  assert (P st) as Hst by eauto.
  pose proof (file_loop_invariant c E P (TOTAL_ITEMS c - nfolders) fuel st
                (λ s s' Hs _ Hit, Hfile s s' Hs Hit) Hst) as H2.
  destruct (file_loop c E (TOTAL_ITEMS c - nfolders) fuel st) as [st2|e st2|st2];
    simpl in *; auto.
Qed.

Lemma reset_root_well_formed m m1 :
  well_formed m → reset_root c E m = inr m1 → well_formed m1.
Proof.
  intros Hwf Hreset. unfold reset_root in Hreset.
  apply bind_inr in Hreset as (m0 & Hrm & Hmk).
  eapply make_root_well_formed; [|done]. by eapply remove_root_well_formed.
Qed.

Lemma reset_root_outside m m1 q :
  reset_root c E m = inr m1 → ¬ below (ROOT_FOLDER c) q →
  m1 !! q = m !! q ∨
  (m !! q = None ∧ m1 !! q = Some Dir ∧ below q (ROOT_FOLDER c)).
Proof.
  intros Hreset Hq. unfold reset_root in Hreset.
  apply bind_inr in Hreset as (m0 & Hrm & Hmk).
  rewrite <- (remove_root_outside m m0 q Hrm Hq).
  unfold make_root in Hmk. apply guarded_inr in Hmk as [_ Hmk].
  apply makedirs_spec in Hmk as [_ Hmk]. apply Hmk.
Qed.

(** X1. The root reset: when it goes through, the root is a directory with
    nothing in it, whatever was there before; an entry outside the root is
    as it was, or is a directory on the way to the root that was missing;
    and the filesystem is still well formed. *)
Theorem reset_root_confined (m m1 : fs) :
  well_formed m → reset_root c E m = inr m1 →
  m1 !! ROOT_FOLDER c = Some Dir ∧
  (∀ q, inside (ROOT_FOLDER c) q → m1 !! q = None) ∧
  (∀ q, ¬ below (ROOT_FOLDER c) q →
     m1 !! q = m !! q ∨
     (m !! q = None ∧ m1 !! q = Some Dir ∧ below q (ROOT_FOLDER c))) ∧
  well_formed m1.
Proof.
  intros Hwf Hreset.
  destruct (reset_root_empty c E m m1 Hwf Hreset) as [Hroot Hempty].
  rewrite node_at_lookup in Hroot by apply join_not_nil.
  split_and!; [done | done | | by eapply reset_root_well_formed].
  intros q Hq. by apply reset_root_outside.
Qed.

Lemma generate_well_formed m fuel :
  well_formed m → well_formed (files (final (generate c E m fuel))).
Proof.
  intros Hwf. apply (generate_from_reset (λ s, well_formed (files s))).
  - intros m0 Hrm. by eapply remove_root_well_formed.
  - intros m1 Hreset. split; by eapply reset_root_well_formed.
  - done.
  - apply folder_iteration_well_formed.
  - apply file_iteration_well_formed.
  - by intros s a b Hs.
Qed.

(** After a reset that went through, the root stays a directory. *)
Lemma generate_root_dir m m1 fuel :
  well_formed m → reset_root c E m = inr m1 →
  files (final (generate c E m fuel)) !! ROOT_FOLDER c = Some Dir.
Proof.
  intros Hwf Hreset.
  destruct (reset_root_empty c E m m1 Hwf Hreset) as [Hroot Hempty].
  rewrite node_at_lookup in Hroot by apply join_not_nil.
  destruct (num_folders c) as [e|nfolders] eqn:Hnum.
  { unfold reset_root in Hreset. apply bind_inr in Hreset as (m0 & Hrm & Hmk).
    unfold generate. by rewrite Hrm, Hmk, Hnum. }
  pose proof (generate_tree_inv c E m m1 nfolders fuel Hwf Hreset Hnum) as Hinv.
  destruct (tree_registry _ _ _ _ _ _ Hinv _ _ (tree_root _ _ _ _ _ _ Hinv))
    as [Hdir _].
  by rewrite node_at_lookup in Hdir by apply join_not_nil.
Qed.

Lemma iteration_outside (m1 : fs) st st' :
  tree_inv c st →
  (∀ q, ¬ below (ROOT_FOLDER c) q → files st !! q = m1 !! q) →
  folder_iteration c E st = inr st' ∨ file_iteration c E st = inr st' →
  ∀ q, ¬ below (ROOT_FOLDER c) q → files st' !! q = m1 !! q.
Proof.
  intros Hinv Hout [Hit | Hit] q Hq.
  - apply folder_iteration_inr in Hit
      as (parent & depth & name & g2 & Hdraw & [(m & Htry & ->) | (e & _ & ->)]);
      [|by apply Hout].
    apply folder_draw_inr in Hdraw as (Hparent & _ & base & _ & ->).
    destruct (try_makedirs_registered c E st parent depth base Hinv Hparent)
      as [_ Hcall].
    rewrite Hcall in Htry. destruct (item_fault E (attempts st)); [done|].
    injection Htry as <-. simpl.
    destruct (tree_registry _ _ _ _ _ _ Hinv _ _ Hparent) as [_ Hb].
    rewrite lookup_insert_ne; [by apply Hout|].
    intros <-. by apply Hq, below_join.
  - apply file_iteration_inr in Hit
      as (target & name & g2 & Hdraw & [(m & Htry & ->) | (e & _ & ->)]);
      [|by apply Hout].
    apply file_draw_inr in Hdraw as ([depth Htarget] & base & _ & ->).
    destruct (try_open_registered c E st target depth base Hinv Htarget)
      as [_ Hcall].
    rewrite Hcall in Htry. destruct (item_fault E (attempts st)); [done|].
    injection Htry as <-. simpl.
    destruct (tree_registry _ _ _ _ _ _ Hinv _ _ Htarget) as [_ Hb].
    rewrite lookup_insert_ne; [by apply Hout|].
    intros <-. by apply Hq, below_join.
Qed.

Lemma generate_outside (m m1 : fs) (fuel : nat) q :
  well_formed m → reset_root c E m = inr m1 → ¬ below (ROOT_FOLDER c) q →
  files (final (generate c E m fuel)) !! q = m1 !! q.
Proof.
  intros Hwf Hreset Hq.
  destruct (num_folders c) as [e|nfolders] eqn:Hnum.
  { unfold reset_root in Hreset. apply bind_inr in Hreset as (m0 & Hrm & Hmk).
    unfold generate. by rewrite Hrm, Hmk, Hnum. }
  cut (tree_inv c (final (generate c E m fuel)) ∧
       ∀ q, ¬ below (ROOT_FOLDER c) q →
            files (final (generate c E m fuel)) !! q = m1 !! q).
  { intros [_ Hout]. by apply Hout. }
  apply (generate_invariant c E
           (λ s, tree_inv c s ∧
                 ∀ q, ¬ below (ROOT_FOLDER c) q → files s !! q = m1 !! q)
           m m1 nfolders fuel Hreset Hnum).
  - intros s s' [Hinv Hout] Hit. split; [by eapply folder_iteration_tree|].
    eapply iteration_outside; eauto.
  - intros s s' [Hinv Hout] Hit. split; [by eapply file_iteration_tree|].
    eapply iteration_outside; eauto.
  - by intros s a b Hs.
  - split; [|done].
    destruct (reset_root_empty c E m m1 Hwf Hreset). by apply tree_inv_initial.
Qed.

(** X3. The run writes under the root only: once the reset went through,
    every path that is not at or below the root holds in the end, however the
    run ends, what it held after the reset. *)
Theorem run_confined (m m1 : fs) (fuel : nat) :
  well_formed m → reset_root c E m = inr m1 →
  ∀ q, ¬ below (ROOT_FOLDER c) q →
       files (final (generate c E m fuel)) !! q = m1 !! q.
Proof. intros Hwf Hreset q Hq. by apply generate_outside. Qed.

End Confinement.

(** ** Attempts, output and the registry *)

Section Accounting.
Context {G : Type} `{!RandomSource G}.
Variable c : config.
Variable E : faults.

Implicit Types (st : @state G) (m : fs) (q : path).

Lemma accounted_start m :
  accounted (unbound (G:=G) c m) ∧ accounted (initial (G:=G) c m).
Proof. split; (split_and!; [done | done | done | constructor]). Qed.

Lemma folder_iteration_accounted st st' :
  accounted st → folder_iteration c E st = inr st' → accounted st'.
Proof.
  intros (Hatt & Hf & Hfi & Hout) Hit. apply folder_iteration_inr in Hit
    as (parent & depth & name & g2 & _ & [(m & _ & ->) | (e & _ & ->)]);
    unfold accounted; simpl.
  - split_and!; [lia | lia | done | done].
  - rewrite length_app. simpl. split_and!; [lia | done | done |].
    apply Forall_app. split; [done|]. constructor; [|constructor].
    exists e. by left.
Qed.

Lemma file_iteration_accounted st st' :
  accounted st → file_iteration c E st = inr st' → accounted st'.
Proof.
  intros (Hatt & Hf & Hfi & Hout) Hit. apply file_iteration_inr in Hit
    as (target & name & g2 & _ & [(m & _ & ->) | (e & _ & ->)]);
    unfold accounted; simpl.
  - split_and!; [lia | done | lia | done].
  - rewrite length_app. simpl. split_and!; [lia | done | done |].
    apply Forall_app. split; [done|]. constructor; [|constructor].
    exists e. by right.
Qed.

Lemma folder_loop_accounted nfolders fuel st :
  accounted st → accounted (final (folder_loop c E nfolders fuel st)).
Proof.
  apply folder_loop_invariant. intros s s' Hs _.
  by apply folder_iteration_accounted.
Qed.

Lemma file_loop_accounted nfiles fuel st :
  accounted st → accounted (final (file_loop c E nfiles fuel st)).
Proof.
  apply file_loop_invariant. intros s s' Hs _.
  by apply file_iteration_accounted.
Qed.

(** A run that completed printed the summary line last, after the lines of
    the loops. *)
Lemma generate_completed_accounted m fuel st nfolders :
  generate c E m fuel = Completed st → num_folders c = inr nfolders →
  ∃ st2, st = print_summary nfolders (TOTAL_ITEMS c - nfolders) st2 ∧
         accounted st2.
Proof.
  intros Hrun Hnum.
  destruct (generate_completed c E m fuel st Hrun) as (m1 & nf & Hreset & _).
  destruct (generate_completed_loops c E _ _ _ _ _ Hreset Hnum Hrun)
    as (st1 & st2 & Hrun1 & Hrun2 & ->).
  exists st2. split; [done|].
  pose proof (folder_loop_accounted nfolders fuel (initial c m1)
                (proj2 (accounted_start m1))) as Hacc1.
  rewrite Hrun1 in Hacc1.
  pose proof (file_loop_accounted (TOTAL_ITEMS c - nfolders) fuel st1 Hacc1)
    as Hacc2.
  by rewrite Hrun2 in Hacc2.
Qed.

(** X4. Attempts are accounted for: in the state after any number of
    iterations of the folder loop, and in the state after any number of
    iterations of the file loop that follows a folder loop that ran to its
    end, the number of creation calls made is the number of folders created
    plus the number of files created plus the number of lines printed, and
    every line printed is one of the two failure lines; a run that completed
    has printed these lines and then the summary line, which shows the two
    numbers asked for. *)
Theorem attempts_accounted (m1 : fs) (nfolders nfiles : Z) (i j : nat) :
  let o := folder_loop c E nfolders i (initial c m1) in
  accounted (final o) ∧
  (∀ st1, o = Completed st1 →
     accounted (final (file_loop c E nfiles j st1))) ∧
  (∀ m fuel st nf,
     generate c E m fuel = Completed st → num_folders c = inr nf →
     ∃ lines,
       stdout st = lines ++ [summary nf (TOTAL_ITEMS c - nf)] ∧
       Forall failure_line lines ∧
       Z.of_nat (attempts st)
         = created_folders st + created_files st + Z.of_nat (length lines)).
Proof.
  cbv zeta.
  pose proof (folder_loop_accounted nfolders i (initial c m1)
                (proj2 (accounted_start m1))) as Hacc1.
  split_and!; [done | |].
  - intros st1 Hst1. rewrite Hst1 in Hacc1. by apply file_loop_accounted.
  - intros m fuel st nf Hrun Hnum.
    destruct (generate_completed_accounted m fuel st nf Hrun Hnum)
      as (st2 & -> & Hatt & _ & _ & Hlines).
    by exists (stdout st2).
Qed.

(** Without refusals the loops print nothing. *)
Lemma both_loops_silent m1 nfolders fuel :
  (∀ k, item_fault E k = None) → tree_inv c (initial (G:=G) c m1) →
  stdout (final (both_loops c E nfolders fuel (initial c m1))) = [].
Proof.
  intros Hnone Hinit.
  cut (tree_inv c (final (both_loops c E nfolders fuel (initial c m1))) ∧
       stdout (final (both_loops c E nfolders fuel (initial c m1))) = []);
    [by intros [_ ?]|].
  apply (both_loops_invariant c E (λ s, tree_inv c s ∧ stdout s = [])).
  - intros s s' [Hinv Hout] Hit. split; [by eapply folder_iteration_tree|].
    apply folder_iteration_inr in Hit
      as (parent & depth & name & g2 & Hdraw & [(m' & _ & ->) | (e & Htry & _)]);
      [done|].
    apply folder_draw_inr in Hdraw as (Hparent & _ & base & _ & ->).
    destruct (try_makedirs_registered c E s parent depth base Hinv Hparent)
      as [_ Hcall].
    by rewrite Hcall, Hnone in Htry.
  - intros s s' [Hinv Hout] Hit. split; [by eapply file_iteration_tree|].
    apply file_iteration_inr in Hit
      as (target & name & g2 & Hdraw & [(m' & _ & ->) | (e & Htry & _)]);
      [done|].
    apply file_draw_inr in Hdraw as ([depth Htarget] & base & _ & ->).
    destruct (try_open_registered c E s target depth base Hinv Htarget)
      as [_ Hcall].
    by rewrite Hcall, Hnone in Htry.
  - done.
Qed.

(** X5. Termination: when the environment refuses no creation call, the pool
    is not empty and [MAX_DEPTH] is at least 2, the run completes within as
    many iterations of each loop as the loop has entries to create; the
    summary line is all it prints, and it makes exactly one creation call for
    each entry. *)
Theorem run_terminates (m m1 : fs) (nfolders : Z) (fuel : nat) :
  (∀ k, item_fault E k = None) → NAMES_LIST c ≠ [] → 2 ≤ MAX_DEPTH c →
  well_formed m →
  reset_root c E m = inr m1 → num_folders c = inr nfolders →
  nfolders ≤ Z.of_nat fuel → TOTAL_ITEMS c - nfolders ≤ Z.of_nat fuel →
  ∃ st, generate c E m fuel = Completed st ∧
        stdout st = [summary nfolders (TOTAL_ITEMS c - nfolders)] ∧
        Z.of_nat (attempts st)
          = Z.max 0 nfolders + Z.max 0 (TOTAL_ITEMS c - nfolders).
Proof.
  intros Hnone Hpool Hmax Hwf Hreset Hnum Hfuel1 Hfuel2.
  destruct (generate_live c E Hnone Hpool m m1 nfolders fuel) as [st Hst];
    try done.
  exists st. split; [done|].
  destruct (generate_completed_counters c E m fuel st nfolders Hst Hnum)
    as [Hf Hfi].
  assert (tree_inv c (initial (G:=G) c m1)) as Hinit.
  { destruct (reset_root_empty c E m m1 Hwf Hreset). by apply tree_inv_initial. }
  pose proof (both_loops_silent m1 nfolders fuel Hnone Hinit) as Hout.
  pose proof (both_loops_invariant c E accounted nfolders fuel (initial c m1)
                folder_iteration_accounted file_iteration_accounted
                (proj2 (accounted_start m1))) as (Hatt & _).
  rewrite (generate_loops c E _ _ _ _ Hreset Hnum) in Hst.
  apply closing_completed in Hst as (st2 & Hloops & ->).
  rewrite Hloops in Hout, Hatt. simpl in Hout, Hatt, Hf, Hfi |- *.
  rewrite Hout in *. split; [done|]. simpl in Hatt. lia.
Qed.

(** The registry follows the journal. *)
Lemma generate_registry m m1 nfolders fuel :
  reset_root c E m = inr m1 → num_folders c = inr nfolders →
  let st := final (generate c E m fuel) in
  (folder_list st).*1 = ROOT_FOLDER c :: journal_dirs (journal st) ∧
  created_folders st = Z.of_nat (length (journal_dirs (journal st))).
Proof.
  intros Hreset Hnum.
  apply (generate_invariant c E
           (λ s, (folder_list s).*1 = ROOT_FOLDER c :: journal_dirs (journal s) ∧
                 created_folders s = Z.of_nat (length (journal_dirs (journal s))))
           m m1 nfolders fuel Hreset Hnum); [| |by intros s a b Hs|done].
  - intros s s' [Hfl Hcount] Hit. apply folder_iteration_inr in Hit
      as (parent & depth & name & g2 & _ & [(m' & _ & ->) | (e & _ & ->)]);
      [|done].
    unfold journal_dirs in *. simpl.
    rewrite filter_app, !fmap_app, Hfl, filter_cons, decide_True by done.
    rewrite length_app. simpl. split; [done | lia].
  - intros s s' [Hfl Hcount] Hit. apply file_iteration_inr in Hit
      as (target & name & g2 & _ & [(m' & _ & ->) | (e & _ & ->)]);
      [|done].
    unfold journal_dirs in *. simpl.
    rewrite filter_app, filter_cons, decide_False by done.
    rewrite filter_nil, app_nil_r. done.
Qed.

(** X6. The registry: once the reset and the computation of [num_folders]
    went through, the registry lists the root and then the folders created,
    in the order of their creation, each once; it has one record more than
    folders were created; and every record is a directory of the
    filesystem. *)
Theorem registry_lists_folders (m m1 : fs) (nfolders : Z) (fuel : nat) :
  well_formed m →
  reset_root c E m = inr m1 → num_folders c = inr nfolders →
  let st := final (generate c E m fuel) in
  (folder_list st).*1 = ROOT_FOLDER c :: journal_dirs (journal st) ∧
  NoDup (folder_list st).*1 ∧
  Z.of_nat (length (folder_list st)) = 1 + created_folders st ∧
  (∀ p dp, (p, dp) ∈ folder_list st → files st !! p = Some Dir).
Proof.
  intros Hwf Hreset Hnum st.
  destruct (generate_registry m m1 nfolders fuel Hreset Hnum) as [Hfl Hcount].
  pose proof (generate_tree_inv c E m m1 nfolders fuel Hwf Hreset Hnum) as Hinv.
  fold st in Hfl, Hcount, Hinv.
  split_and!; [done | | |].
  - rewrite Hfl. apply NoDup_cons. split.
    + intros Hin. unfold journal_dirs in Hin.
      apply list_elem_of_fmap in Hin as ([p n] & Hp & Hin). simpl in Hp. subst p.
      apply list_elem_of_filter in Hin as [_ Hin].
      apply (tree_journal _ _ _ _ _ _ Hinv) in Hin as [_ [_ Hne]]. done.
    + unfold journal_dirs.
      eapply sublist_NoDup; [apply (tree_journal_nodup _ _ _ _ _ _ Hinv)|].
      apply fmap_sublist, sublist_filter.
  - rewrite <- (length_fmap fst), Hfl, Hcount. simpl. lia.
  - intros p dp Hp.
    destruct (tree_registry _ _ _ _ _ _ Hinv _ _ Hp) as [Hdir [k ->]].
    rewrite node_at_lookup in Hdir; [done|].
    unfold ROOT_FOLDER, join. by destruct (cwd c).
Qed.

End Accounting.

(** ** Shape and names of the tree *)

Section Shape.
Context {G : Type} `{!RandomSource G}.
Variable c : config.
Variable E : faults.

Implicit Types (st : @state G) (m : fs) (q : path).

(** X7. Height of the tree: with [MAX_DEPTH] at least 1, once the reset and
    the computation of [num_folders] went through, every entry strictly below
    the root, in the state after any number of iterations, lies at most
    [MAX_DEPTH] components below the root, and every folder less than
    [MAX_DEPTH]. *)
Theorem tree_height_bounded (m m1 : fs) (nfolders : Z) (fuel : nat) :
  1 ≤ MAX_DEPTH c → well_formed m →
  reset_root c E m = inr m1 → num_folders c = inr nfolders →
  ∀ p n, files (final (generate c E m fuel)) !! p = Some n →
         inside (ROOT_FOLDER c) p →
         Z.of_nat (length p) ≤ Z.of_nat (length (ROOT_FOLDER c)) + MAX_DEPTH c ∧
         (n = Dir →
          Z.of_nat (length p) < Z.of_nat (length (ROOT_FOLDER c)) + MAX_DEPTH c).
Proof.
  intros Hmax Hwf Hreset Hnum p n Hp Hin.
  pose proof (generate_tree_inv c E m m1 nfolders fuel Hwf Hreset Hnum) as Hinv.
  pose proof (generate_depth_inv c E m m1 nfolders fuel Hreset Hnum) as Hdepth.
  assert ((p, n) ∈ journal (final (generate c E m fuel))) as Hj
    by (by apply (tree_journal _ _ _ _ _ _ Hinv)).
  split.
  - destruct (tree_parent _ _ _ _ _ _ Hinv _ _ Hj) as [Hjoin [dp Hreg]].
    destruct (depth_ok_bound c _ _ _ Hdepth Hreg) as (_ & Hlt & _).
    destruct (depth_true _ _ Hdepth _ _ Hreg) as (k & Hk & ->).
    rewrite Hjoin, Hk. unfold join. rewrite !length_app. simpl. lia.
  - intros ->. destruct (tree_dirs _ _ _ _ _ _ Hinv _ Hj) as [dp Hreg].
    destruct (depth_ok_bound c _ _ _ Hdepth Hreg) as (_ & Hlt & _).
    destruct (depth_true _ _ Hdepth _ _ Hreg) as (k & -> & ->).
    rewrite length_app. lia.
Qed.

(** X8. Counts for any ratio: a completed run leaves [max(0, num_folders)]
    folders and [max(0, TOTAL_ITEMS - num_folders)] files under the root;
    with a ratio above 1 that is more folders than [TOTAL_ITEMS] and no file,
    with a negative one no folder and more files than [TOTAL_ITEMS]. *)
Theorem counts_any_ratio (m : fs) (fuel : nat) (st : @state G) (nfolders : Z) :
  well_formed m →
  num_folders c = inr nfolders →
  generate c E m fuel = Completed st →
  Z.of_nat (folders_under (ROOT_FOLDER c) (files st)) = Z.max 0 nfolders ∧
  Z.of_nat (files_under (ROOT_FOLDER c) (files st))
    = Z.max 0 (TOTAL_ITEMS c - nfolders).
Proof.
  intros Hwf Hnum Hrun.
  destruct (generate_completed_inv c E m fuel st nfolders Hwf Hrun Hnum)
    as (Hinv & _ & Hfolders & Hfiles).
  rewrite <- (tree_folders_count _ _ _ _ _ _ Hinv).
  by rewrite <- (tree_files_count _ _ _ _ _ _ Hinv).
Qed.

Lemma get_unique_name_from_pool m (d : path) (base : string) :
  base ∈ NAMES_LIST c → from_pool (NAMES_LIST c) (get_unique_name m d base).
Proof.
  intros Hbase. exists base. split; [done|].
  destruct (get_unique_name_resolves m d base)
    as [[_ ->] | [_ (k & Hk & -> & _)]]; [by left | right; eauto].
Qed.

Lemma generate_names m fuel :
  ∀ p n, (p, n) ∈ journal (final (generate c E m fuel)) →
         from_pool (NAMES_LIST c) (List.last p "").
Proof.
  apply (generate_from_reset c E
           (λ s, ∀ p n, (p, n) ∈ journal s →
                        from_pool (NAMES_LIST c) (List.last p ""))).
  - by intros m0 _ p n ?%elem_of_nil.
  - intros m1 _. split; by intros p n ?%elem_of_nil.
  - by intros p n ?%elem_of_nil.
  - intros s s' Hs Hit p n Hp. apply folder_iteration_inr in Hit
      as (parent & depth & name & g2 & Hdraw & [(m' & _ & ->) | (e & _ & ->)]);
      [|by eapply Hs].
    simpl in Hp. apply elem_of_app in Hp as [Hp | Hp%list_elem_of_singleton];
      [by eapply Hs|].
    injection Hp as -> ->. rewrite last_join.
    apply folder_draw_inr in Hdraw as (_ & _ & base & Hbase & ->).
    by apply get_unique_name_from_pool.
  - intros s s' Hs Hit p n Hp. apply file_iteration_inr in Hit
      as (target & name & g2 & Hdraw & [(m' & _ & ->) | (e & _ & ->)]);
      [|by eapply Hs].
    simpl in Hp. apply elem_of_app in Hp as [Hp | Hp%list_elem_of_singleton];
      [by eapply Hs|].
    injection Hp as -> ->. rewrite last_join.
    apply file_draw_inr in Hdraw as (_ & base & Hbase & ->).
    by apply get_unique_name_from_pool.
  - by intros s a b Hs.
Qed.

(** X9. Names come from the pool: once the reset and the computation of
    [num_folders] went through, every entry strictly below the root, in the
    state after any number of iterations, is called by a name of the pool or
    by one followed by a counter in parentheses, from 1 on. *)
Theorem names_from_pool (m m1 : fs) (nfolders : Z) (fuel : nat) :
  well_formed m →
  reset_root c E m = inr m1 → num_folders c = inr nfolders →
  ∀ p n, files (final (generate c E m fuel)) !! p = Some n →
         inside (ROOT_FOLDER c) p →
         from_pool (NAMES_LIST c) (List.last p "").
Proof.
  intros Hwf Hreset Hnum p n Hp Hin.
  pose proof (generate_tree_inv c E m m1 nfolders fuel Hwf Hreset Hnum) as Hinv.
  apply (generate_names m fuel p n). by apply (tree_journal _ _ _ _ _ _ Hinv).
Qed.

Lemma num_folders_zero :
  TOTAL_ITEMS c = 0 → finite_float (FOLDER_RATIO c) = true →
  num_folders c = inr 0.
Proof.
  unfold num_folders. intros -> Hfinite.
  by destruct (FOLDER_RATIO c) as [s| s| |s mant e].
Qed.

(** X10. Nothing to create: with [TOTAL_ITEMS] at 0 and a finite ratio, the
    run completes right after the reset, under every bound, with no draw and
    no creation call, also with an empty pool or a [MAX_DEPTH] below 2; all
    it does after the reset is to print the summary line, with 0 and 0. *)
Theorem nothing_to_create (m m1 : fs) (fuel : nat) :
  TOTAL_ITEMS c = 0 → finite_float (FOLDER_RATIO c) = true →
  reset_root c E m = inr m1 →
  ∃ st, generate c E m fuel = Completed st ∧
        st = print_summary 0 0 (initial c m1) ∧
        stdout st = ["Successfully created 0 folders and 0 files!"].
Proof.
  intros Htotal Hfinite Hreset.
  exists (print_summary 0 0 (initial c m1)). split; [|done].
  rewrite (generate_loops c E _ _ _ _ Hreset (num_folders_zero Htotal Hfinite)).
  unfold both_loops. rewrite Htotal. by destruct fuel.
Qed.

End Shape.

(** ** Numbering in [get_unique_name] *)

Lemma string_app_nil_r (s : string) : s +:+ "" = s.
Proof.
  induction s as [|a s IH]; [done|].
  change (String a (s +:+ "") = String a s). by rewrite IH.
Qed.

Lemma numbered_not_base (base_name : string) (k : nat) :
  numbered base_name k ≠ base_name.
Proof.
  unfold numbered. intros Heq.
  rewrite <- (string_app_nil_r base_name) in Heq at 2.
  apply (inj (String.app base_name)) in Heq. discriminate Heq.
Qed.

Lemma taken_insert (m : fs) (d : path) (name other : string) (x : node) :
  taken (<[join d name := x]> m) d other
  = if decide (other = name) then true else taken m d other.
Proof.
  unfold taken, path_exists. rewrite !node_at_join. case_decide as Heq.
  - subst. by rewrite lookup_insert_eq.
  - rewrite lookup_insert_ne; [done|]. by intros [_ ?]%join_inj.
Qed.

(** When the base name and the first numbered names are taken, the next
    number is given. *)
Lemma get_unique_name_next (m : fs) (d : path) (base_name : string) (i : nat) :
  (1 ≤ i)%nat → taken m d base_name = true →
  (∀ j, (1 ≤ j < i)%nat → taken m d (numbered base_name j) = true) →
  taken m d (numbered base_name i) = false →
  get_unique_name m d base_name = numbered base_name i.
Proof.
  intros Hi Hbase Hbelow Hfree.
  apply (resolves_functional m d base_name); [apply get_unique_name_resolves|].
  right. split; [done|]. exists i. by split_and!.
Qed.

Lemma reserve_from (k : nat) (m : fs) (d : path) (base_name : string)
    (x : node) (i : nat) :
  (1 ≤ i)%nat → taken m d base_name = true →
  (∀ j, (1 ≤ j < i)%nat → taken m d (numbered base_name j) = true) →
  (∀ j, (i ≤ j)%nat → taken m d (numbered base_name j) = false) →
  (reserve k m d base_name x).1 = numbered base_name <$> seq i k.
Proof.
  revert m i. induction k as [|k IH]; intros m i Hi Hbase Hbelow Hfree; [done|].
  simpl. rewrite (get_unique_name_next m d base_name i) by auto.
  specialize (IH (<[join d (numbered base_name i) := x]> m) (S i)).
  destruct (reserve k _ d base_name x) as [names m'] eqn:Hres. simpl in *.
  f_equal. apply IH.
  - lia.
  - rewrite taken_insert. by case_decide.
  - intros j Hj. rewrite taken_insert. case_decide; [done|].
    apply Hbelow. destruct (decide (j = i)) as [-> | ?]; [done | lia].
  - intros j Hj. rewrite taken_insert. case_decide as Heq.
    + apply numbered_inj in Heq. lia.
    + apply Hfree. lia.
Qed.

(** X12. Numbering: in a directory where neither the base name nor any of
    its numbered names is taken, creations under the names that
    [get_unique_name] gives for that base name, one after the other, are
    called [base], [base (1)], [base (2)] and so on, in this order. *)
Theorem reserve_numbers (k : nat) (m : fs) (d : path) (base_name : string)
    (x : node) :
  taken m d base_name = false →
  (∀ j, (1 ≤ j)%nat → taken m d (numbered base_name j) = false) →
  (reserve (S k) m d base_name x).1
  = base_name :: (numbered base_name <$> seq 1 k).
Proof.
  intros Hbase Hfree. simpl.
  assert (get_unique_name m d base_name = base_name) as ->.
  { apply (resolves_functional m d base_name); [apply get_unique_name_resolves|].
    by left. }
  pose proof (reserve_from k (<[join d base_name := x]> m) d base_name x 1) as Hk.
  destruct (reserve k _ d base_name x) as [names m'] eqn:Hres. simpl in *.
  f_equal. apply Hk.
  - lia.
  - rewrite taken_insert. by case_decide.
  - intros j Hj. lia.
  - intros j Hj. rewrite taken_insert. case_decide as Heq.
    + by apply numbered_not_base in Heq.
    + by apply Hfree.
Qed.

(** ** Running again *)

Section Again.
Context {G : Type} `{!RandomSource G}.

Implicit Types (st : @state G) (m : fs) (q : path).

(** Two runs that differ in the working directory and the filesystem at most
    end in states that are alike. *)
Lemma generate_alike (c1 c2 : config) (E1 E2 : faults) m1 m2 m1' m2' fuel :
  same_settings c1 c2 → (∀ k, item_fault E1 k = item_fault E2 k) →
  well_formed m1 → well_formed m2 →
  reset_root c1 E1 m1 = inr m1' → reset_root c2 E2 m2 = inr m2' →
  let o1 := generate c1 E1 m1 fuel in
  let o2 := generate c2 E2 m2 fuel in
  same_ending o1 o2 ∧
  alike (ROOT_FOLDER c1) (ROOT_FOLDER c2) (final o1) (final o2).
Proof.
  intros Hset Hrefusals Hwf1 Hwf2 Hreset1 Hreset2. cbv zeta.
  pose proof (reset_same_tree c1 c2 E1 E2 m1 m2 m1' m2' Hwf1 Hwf2 Hreset1 Hreset2)
    as Hsame.
  pose proof Hset as (Htotal & Hmax & Hratio & Hseed & Hpool).
  assert (num_folders c2 = num_folders c1) as Hnum.
  { unfold num_folders. by rewrite Htotal, Hratio. }
  destruct (num_folders c1) as [e|nfolders] eqn:Hnum1.
  { unfold reset_root in Hreset1, Hreset2.
    apply bind_inr in Hreset1 as (m01 & Hrm1 & Hmk1).
    apply bind_inr in Hreset2 as (m02 & Hrm2 & Hmk2).
    unfold generate. rewrite Hrm1, Hmk1, Hrm2, Hmk2, Hnum, Hnum1. simpl.
    split; [done|]. split; simpl; try done; [by rewrite Hseed | constructor]. }
  rewrite (generate_loops c1 E1 _ _ _ _ Hreset1 Hnum1).
  rewrite (generate_loops c2 E2 _ _ _ _ Hreset2 Hnum).
  unfold both_loops.
  assert (alike (ROOT_FOLDER c1) (ROOT_FOLDER c2) (initial c1 m1') (initial c2 m2'))
    as Hinit.
  { split; simpl; try done; [by rewrite Hseed|].
    constructor; [|constructor]. split; [done|]. exists []. by rewrite !app_nil_r. }
  assert (tree_inv c1 (initial c1 m1')) as Hinv1.
  { destruct (reset_root_empty c1 E1 m1 m1' Hwf1 Hreset1).
    by apply tree_inv_initial. }
  assert (tree_inv c2 (initial c2 m2')) as Hinv2.
  { destruct (reset_root_empty c2 E2 m2 m2' Hwf2 Hreset2).
    by apply tree_inv_initial. }
  destruct (folder_loop_alike c1 c2 E1 E2 Hset Hrefusals nfolders fuel _ _
              Hinit Hinv1 Hinv2) as (Hend & Halike & Hinv1' & Hinv2').
  rewrite <- Htotal.
  destruct (folder_loop c1 E1 nfolders fuel (initial c1 m1')) as [s1|e1 s1|s1],
    (folder_loop c2 E2 nfolders fuel (initial c2 m2')) as [s2|e2 s2|s2];
    try done; simpl in *.
  destruct (file_loop_alike c1 c2 E1 E2 Hset Hrefusals
              (TOTAL_ITEMS c1 - nfolders) fuel s1 s2 Halike Hinv1' Hinv2')
    as [Hend' Halike'].
  destruct (file_loop c1 E1 (TOTAL_ITEMS c1 - nfolders) fuel s1) as [t1|e1 t1|t1],
    (file_loop c2 E2 (TOTAL_ITEMS c1 - nfolders) fuel s2) as [t2|e2 t2|t2];
    try done; simpl in *.
  split; [done|]. destruct Halike'. split; simpl; try done. by f_equal.
Qed.

Lemma same_registry_eq (R : path) (fl1 fl2 : list (path * Z)) :
  same_registry R R fl1 fl2 → fl1 = fl2.
Proof.
  unfold same_registry. induction 1 as [|[p1 d1] [p2 d2] fl1 fl2 Hrec _ IH];
    [done|].
  destruct Hrec as [Hd (q & Hp1 & Hp2)]. simpl in *. by subst.
Qed.

Variable c : config.
Variable E : faults.
Hypothesis rmtree_goes : rmtree_fault E = None.
Hypothesis mkroot_goes : mkroot_fault E = None.

(** The reset of a root that is there, when its two calls are not refused. *)
Lemma reset_root_again m :
  well_formed m → m !! ROOT_FOLDER c = Some Dir →
  reset_root c E m
  = inr (<[ROOT_FOLDER c := Dir]> (filter (λ e, ¬ below (ROOT_FOLDER c) e.1) m)).
Proof.
  intros Hwf Hroot.
  assert (node_at m (ROOT_FOLDER c) = Some Dir) as Hnode
    by (by rewrite node_at_lookup by apply join_not_nil).
  unfold reset_root, remove_root, path_exists, rmtree.
  rewrite Hnode, rmtree_goes. simpl.
  unfold make_root. rewrite mkroot_goes. simpl.
  apply makedirs_fresh.
  - specialize (Hwf _ _ Hroot). simpl in Hwf.
    unfold ROOT_FOLDER in Hwf. rewrite dirname_join in Hwf.
    destruct (cwd c) as [|a wd] eqn:Hcwd; [done|]. simpl in *.
    apply map_lookup_filter_Some. split; [done|]. simpl.
    rewrite <- Hcwd. apply join_not_below.
  - rewrite node_at_join. apply map_lookup_filter_None. right.
    intros x _ Hnot. by apply Hnot.
Qed.

(** X13. Running again: when the two calls of the reset are not refused, a
    second run, started on the filesystem that a first run left and meeting
    the same refusals in its loops, ends the same way and leaves the same
    filesystem, registry and output. *)
Theorem rerun_reproduces (m m1 : fs) (fuel : nat) :
  well_formed m → reset_root c E m = inr m1 →
  let o1 := generate c E m fuel in
  let o2 := generate c E (files (final o1)) fuel in
  same_ending o1 o2 ∧
  files (final o2) = files (final o1) ∧
  folder_list (final o2) = folder_list (final o1) ∧
  stdout (final o2) = stdout (final o1).
Proof.
  intros Hwf Hreset. cbv zeta.
  set (st1 := final (generate c E m fuel)).
  assert (well_formed (files st1)) as Hwf1 by (by apply generate_well_formed).
  assert (files st1 !! ROOT_FOLDER c = Some Dir) as Hroot1
    by (by eapply generate_root_dir).
  pose proof (reset_root_again (files st1) Hwf1 Hroot1) as Hreset2.
  destruct (generate_alike c c E E m (files st1) _ _ fuel
              ltac:(by repeat split) ltac:(done) Hwf Hwf1 Hreset Hreset2)
    as [Hend Halike].
  fold st1 in Halike.
  split; [done|]. split_and!.
  - apply map_eq. intros q.
    destruct (decide (below (ROOT_FOLDER c) q)) as [[k ->] | Hq].
    + symmetry. apply (alike_files _ _ _ _ Halike).
    + rewrite (generate_outside c E (files st1) _ fuel q Hwf1 Hreset2 Hq).
      rewrite lookup_insert_ne by (intros <-; by apply Hq).
      rewrite map_lookup_filter. destruct (files st1 !! q); [|done]. simpl.
      by rewrite option_guard_True.
  - symmetry. by eapply same_registry_eq, (alike_registry _ _ _ _ Halike).
  - symmetry. apply (alike_stdout _ _ _ _ Halike).
Qed.

End Again.

(** ** Instances *)

Lemma reset_root_confined_witness :
  fresh_disk !! ROOT_FOLDER (scenario ["home"; "u"]) = Some Dir ∧
  (∀ q, inside (ROOT_FOLDER (scenario ["home"; "u"])) q → fresh_disk !! q = None) ∧
  (∀ q, ¬ below (ROOT_FOLDER (scenario ["home"; "u"])) q →
     fresh_disk !! q = used_disk !! q ∨
     (used_disk !! q = None ∧ fresh_disk !! q = Some Dir ∧
      below q (ROOT_FOLDER (scenario ["home"; "u"])))) ∧
  well_formed fresh_disk.
Proof.
  apply (reset_root_confined (scenario ["home"; "u"]) flaky used_disk fresh_disk).
  - apply (bool_decide_unpack (well_formed used_disk)). exact I.
  - reflexivity.
Defined.

Lemma run_confined_witness :
  files (final (@generate Z lcg (scenario ["home"; "u"]) flaky used_disk 20))
    !! ["home"; "notes"]
  = fresh_disk !! ["home"; "notes"].
Proof.
  apply (@run_confined Z lcg (scenario ["home"; "u"]) flaky used_disk fresh_disk 20).
  - apply (bool_decide_unpack (well_formed used_disk)). exact I.
  - reflexivity.
  - apply (bool_decide_unpack
             (¬ below (ROOT_FOLDER (scenario ["home"; "u"])) ["home"; "notes"])).
    exact I.
Defined.

Lemma attempts_accounted_witness :
  accounted
    (final (@folder_loop Z lcg (tiny ["u"]) flaky 1 1
              (@initial Z lcg (tiny ["u"]) ∅))).
Proof.
  apply (@attempts_accounted Z lcg (tiny ["u"]) flaky ∅ 1 0 1 0).
Defined.

Lemma run_terminates_witness :
  ∃ st, @generate Z lcg (scenario ["home"; "u"]) no_faults used_disk 10
          = Completed st ∧
        stdout st = ["Successfully created 4 folders and 6 files!"] ∧
        Z.of_nat (attempts st) = Z.max 0 4 + Z.max 0 (10 - 4).
Proof.
  apply (@run_terminates Z lcg (scenario ["home"; "u"]) no_faults
           used_disk fresh_disk 4 10).
  - intros k. reflexivity.
  - discriminate.
  - simpl; lia.
  - apply (bool_decide_unpack (well_formed used_disk)). exact I.
  - reflexivity.
  - reflexivity.
  - lia.
  - simpl; lia.
Defined.

Lemma registry_lists_folders_witness :
  let st := final (@generate Z lcg (scenario ["home"; "u"]) flaky used_disk 20) in
  (folder_list st).*1
    = ROOT_FOLDER (scenario ["home"; "u"]) :: journal_dirs (journal st) ∧
  NoDup (folder_list st).*1 ∧
  Z.of_nat (length (folder_list st)) = 1 + created_folders st ∧
  (∀ p dp, (p, dp) ∈ folder_list st → files st !! p = Some Dir).
Proof.
  apply (@registry_lists_folders Z lcg (scenario ["home"; "u"]) flaky
           used_disk fresh_disk 4 20).
  - apply (bool_decide_unpack (well_formed used_disk)). exact I.
  - reflexivity.
  - reflexivity.
Defined.

Lemma tree_height_bounded_witness :
  Z.of_nat (length ["u"; "test_data"; "b"; "b"])
    ≤ Z.of_nat (length (ROOT_FOLDER (tiny ["u"]))) + MAX_DEPTH (tiny ["u"]) ∧
  (File "" = Dir →
   Z.of_nat (length ["u"; "test_data"; "b"; "b"])
     < Z.of_nat (length (ROOT_FOLDER (tiny ["u"]))) + MAX_DEPTH (tiny ["u"])).
Proof.
  apply (@tree_height_bounded Z lcg (tiny ["u"]) no_faults ∅
           (<[ ["u"; "test_data"] := Dir ]> (<[ ["u"] := Dir ]> ∅)) 1 3).
  - simpl; lia.
  - apply map_Forall_empty.
  - reflexivity.
  - reflexivity.
  - reflexivity.
  - apply (bool_decide_unpack
             (inside (ROOT_FOLDER (tiny ["u"])) ["u"; "test_data"; "b"; "b"])).
    exact I.
Defined.

Lemma counts_any_ratio_witness :
  let st := final (@generate Z lcg (greedy ["u"]) no_faults ∅ 3) in
  Z.of_nat (folders_under (ROOT_FOLDER (greedy ["u"])) (files st)) = Z.max 0 3 ∧
  Z.of_nat (files_under (ROOT_FOLDER (greedy ["u"])) (files st)) = Z.max 0 (2 - 3).
Proof.
  apply (@counts_any_ratio Z lcg (greedy ["u"]) no_faults ∅ 3).
  - apply map_Forall_empty.
  - reflexivity.
  - reflexivity.
Defined.

Lemma names_from_pool_witness :
  from_pool ["a"; "b"] (List.last ["u"; "test_data"; "b (1)"] "").
Proof.
  apply (@names_from_pool Z lcg (tiny ["u"]) no_faults ∅
           (<[ ["u"; "test_data"] := Dir ]> (<[ ["u"] := Dir ]> ∅)) 1 3
           ltac:(apply map_Forall_empty) eq_refl eq_refl
           ["u"; "test_data"; "b (1)"] (File "")).
  - reflexivity.
  - apply (bool_decide_unpack
             (inside (ROOT_FOLDER (tiny ["u"])) ["u"; "test_data"; "b (1)"])).
    exact I.
Defined.

Lemma nothing_to_create_witness :
  ∃ st, @generate Z lcg (idle ["home"; "u"]) flaky used_disk 0 = Completed st ∧
        st = print_summary 0 0 (@initial Z lcg (idle ["home"; "u"]) fresh_disk) ∧
        stdout st = ["Successfully created 0 folders and 0 files!"].
Proof.
  apply (@nothing_to_create Z lcg (idle ["home"; "u"]) flaky used_disk fresh_disk 0);
    reflexivity.
Defined.

Lemma reserve_numbers_witness :
  (reserve 4 ∅ ["r"] "Café" Dir).1 = "Café" :: (numbered "Café" <$> seq 1 3).
Proof.
  apply (reserve_numbers 3 ∅ ["r"] "Café" Dir).
  - reflexivity.
  - intros j _. unfold taken, path_exists. by rewrite node_at_join, lookup_empty.
Defined.

Lemma rerun_reproduces_witness :
  let o1 := @generate Z lcg (scenario ["home"; "u"]) flaky used_disk 20 in
  let o2 := @generate Z lcg (scenario ["home"; "u"]) flaky (files (final o1)) 20 in
  same_ending o1 o2 ∧
  files (final o2) = files (final o1) ∧
  folder_list (final o2) = folder_list (final o1) ∧
  stdout (final o2) = stdout (final o1).
Proof.
  apply (@rerun_reproduces Z lcg (scenario ["home"; "u"]) flaky eq_refl eq_refl
           used_disk fresh_disk 20).
  - apply (bool_decide_unpack (well_formed used_disk)). exact I.
  - reflexivity.
Defined.
